(** * Verification of the asset-generation pipeline

    Shallow embedding of [services/geminiService.ts] (text sanitizers, voice
    synthesizer, visual planner, asset generator) and of the archive text
    extractor [extractTextFromZip], followed by the properties established
    about them.

    Conventions of the embedding.
    - A JavaScript string is the list of its UTF-16 code units ([jsstring]).
    - The regular-expression replacements of the source are written as
      matchers run by one left-to-right scanner ([scan]), which is what
      [String.prototype.replace] does with a global pattern that never
      matches the empty string.
    - Asynchronous functions that talk to a provider are written in a small
      monad [io] that records the requests and delays in order and carries
      thrown exceptions; what a provider answers is given by an oracle
      indexed by the attempt number.  Calls to [addLog] and [console] only
      report and are left out. *)

From Stdlib Require Import String Ascii List NArith ZArith Bool Lia PrimFloat.
Import ListNotations.

(* ------------------------------------------------------------------ *)
(** * JavaScript strings *)
(* ------------------------------------------------------------------ *)

Module JsString.

Definition jsstring := list N.

(** Literal of the source text, code unit by code unit. *)
Definition lit (s : string) : jsstring :=
  List.map N_of_ascii (list_ascii_of_string s).

Definition eqb (a b : jsstring) : bool :=
  if list_eq_dec N.eq_dec a b then true else false.

(** Code units used by the source. *)
Definition c_tick : N := 96.      (* ` *)
Definition c_lbrack : N := 91.    (* [ *)
Definition c_rbrack : N := 93.    (* ] *)
Definition c_rbrace : N := 125.   (* } *)
Definition c_lparen : N := 40.    (* ( *)
Definition c_rparen : N := 41.    (* ) *)
Definition c_comma : N := 44.     (* , *)
Definition c_star : N := 42.      (* * *)
Definition c_space : N := 32.
Definition c_quote : N := 34.     (* double quote *)
Definition c_nl : N := 10.

(** [\s] of a regular expression and the characters removed by [trim]:
    WhiteSpace and LineTerminator of ECMAScript. *)
Definition is_space (c : N) : bool :=
  ((9 <=? c) && (c <=? 13) || (c =? 32) || (c =? 160) || (c =? 5760)
   || (8192 <=? c) && (c <=? 8202) || (c =? 8232) || (c =? 8233)
   || (c =? 8239) || (c =? 8287) || (c =? 12288) || (c =? 65279))%N.

(** [.] of a regular expression matches everything but a line terminator. *)
Definition is_line_terminator (c : N) : bool :=
  ((c =? 10) || (c =? 13) || (c =? 8232) || (c =? 8233))%N.

(** Case-insensitive comparison with an ASCII lower-case letter, as the [i]
    flag does without the [u] flag: only the two ASCII forms match. *)
Definition eq_ci (lower c : N) : bool := ((c =? lower) || (c =? lower - 32))%N.

(** [toLowerCase], on the ASCII letters.  Code units outside ASCII are kept:
    the only ones whose lower case is or starts with an ASCII letter give
    [k] and [i], letters that occur neither in an extension of
    [RELEVANT_EXTENSIONS] nor in the word looked for in entry names, so the
    tests made on the result are not affected. *)
Definition toLowerCase (s : jsstring) : jsstring :=
  List.map (fun c => if ((65 <=? c) && (c <=? 90))%N then (c + 32)%N else c) s.

Fixpoint startsWith (p s : jsstring) : bool :=
  match p, s with
  | [], _ => true
  | _ :: _, [] => false
  | a :: p', b :: s' => (a =? b)%N && startsWith p' s'
  end.

Definition endsWith (s suffix : jsstring) : bool :=
  startsWith (rev suffix) (rev s).

Fixpoint includes (s sub : jsstring) : bool :=
  match s with
  | [] => startsWith sub []
  | _ :: s' => startsWith sub s || includes s' sub
  end.

(** [indexOf] and [lastIndexOf] of one character; -1 when it is absent. *)
Fixpoint indexOf (c : N) (s : jsstring) : Z :=
  match s with
  | [] => -1
  | x :: s' => if (x =? c)%N then 0
               else let i := indexOf c s' in
                    if (i =? -1)%Z then -1 else (i + 1)%Z
  end.

Fixpoint lastIndexOf (c : N) (s : jsstring) : Z :=
  match s with
  | [] => -1
  | x :: s' => let i := lastIndexOf c s' in
               if (i =? -1)%Z then (if (x =? c)%N then 0 else -1)
               else (i + 1)%Z
  end.

(** [substring(from, to)] for [0 <= from <= to]. *)
Definition substring (from to : Z) (s : jsstring) : jsstring :=
  firstn (Z.to_nat to - Z.to_nat from) (skipn (Z.to_nat from) s).

Fixpoint trimStart (s : jsstring) : jsstring :=
  match s with
  | c :: s' => if is_space c then trimStart s' else s
  | [] => []
  end.

Definition trim (s : jsstring) : jsstring :=
  rev (trimStart (rev (trimStart s))).

(** ** Global replacement

    A matcher looks at the text from one position on and, when the pattern
    matches there, gives the replacement and the length of the match (at
    least 1).  [scan] goes through the text from left to right: at a match it
    writes the replacement and resumes after the match, elsewhere it copies
    the character.  [skip] counts the characters of the current match that
    are still to be passed over. *)
Definition matcher := jsstring -> option (jsstring * nat).

Fixpoint scan (m : matcher) (skip : nat) (s : jsstring) : jsstring :=
  match s with
  | [] => []
  | c :: s' =>
      match skip with
      | S k => scan m k s'
      | O => match m s with
             | Some (rep, len) => rep ++ scan m (pred len) s'
             | None => c :: scan m 0 s'
             end
      end
  end.

Definition replaceAll (m : matcher) (s : jsstring) : jsstring := scan m 0 s.

(** Longest prefix of characters satisfying [p]. *)
Fixpoint span (p : N -> bool) (s : jsstring) : jsstring :=
  match s with
  | c :: s' => if p c then c :: span p s' else []
  | [] => []
  end.

End JsString.
Import JsString.

(* ------------------------------------------------------------------ *)
(** * Text sanitizers *)
(* ------------------------------------------------------------------ *)

(** A pattern that is a sequence of character classes: the text matches
    when it has a character of each class, in order. *)
Fixpoint matches_classes (classes : list (N -> bool)) (s : jsstring) : bool :=
  match classes, s with
  | [], _ => true
  | _ :: _, [] => false
  | p :: classes', x :: s' => p x && matches_classes classes' s'
  end.

(** Such a pattern, replaced by the empty string. *)
Definition re_remove (classes : list (N -> bool)) : matcher := fun s =>
  if matches_classes classes s then Some ([], length classes) else None.

(** [/```json/gi] *)
Definition re_fence_json : matcher :=
  re_remove [ N.eqb c_tick; N.eqb c_tick; N.eqb c_tick;
              eq_ci 106; eq_ci 115; eq_ci 111; eq_ci 110 ].

(** [/```/g] *)
Definition re_fence : matcher :=
  re_remove [ N.eqb c_tick; N.eqb c_tick; N.eqb c_tick ].

(** [/,(\s*[\]}])/g] with replacement ['$1']: the comma is dropped, the
    white space and the closing bracket are kept. *)
Definition re_trailing_comma : matcher := fun s =>
  match s with
  | c :: s' =>
      if (c =? c_comma)%N then
        let ws := span is_space s' in
        match skipn (length ws) s' with
        | d :: _ => if (d =? c_rbrack)%N || (d =? c_rbrace)%N
                    then Some (ws ++ [d], S (S (length ws))) else None
        | [] => None
        end
      else None
  | [] => None
  end.

Definition cleanJson (text : jsstring) : jsstring :=
  match text with
  | [] => lit "[]"
  | _ =>
      let clean := replaceAll re_fence (replaceAll re_fence_json text) in
      let start := indexOf c_lbrack clean in
      let end_ := lastIndexOf c_rbrack clean in
      let clean :=
        if negb (start =? -1)%Z && negb (end_ =? -1)%Z && (end_ >? start)%Z
        then substring start (end_ + 1) clean else clean in
      let clean := replaceAll re_trailing_comma clean in
      trim clean
  end.

(** [/\*+/g] *)
Definition re_stars : matcher := fun s =>
  match span (N.eqb c_star) s with
  | [] => None
  | run => Some ([], length run)
  end.

(** [/\[.*?\]/g] and [/\(.*?\)/g] with replacement [' ']: from the opening
    character to the first closing one, provided no line terminator lies
    between them. *)
Definition re_enclosed (open close : N) : matcher := fun s =>
  match s with
  | c :: s' =>
      if (c =? open)%N then
        let body := span (fun x => negb (x =? close)%N && negb (is_line_terminator x)) s' in
        match skipn (length body) s' with
        | d :: _ => if (d =? close)%N
                    then Some ([c_space], S (S (length body))) else None
        | [] => None
        end
      else None
  | [] => None
  end.

(** [/\s+/g] with replacement [' '] *)
Definition re_spaces : matcher := fun s =>
  match span is_space s with
  | [] => None
  | run => Some ([c_space], length run)
  end.

Definition cleanScriptForTTS (text : jsstring) : jsstring :=
  let clean := replaceAll re_stars text in
  let clean := replaceAll (re_enclosed c_lparen c_rparen)
                 (replaceAll (re_enclosed c_lbrack c_rbrack) clean) in
  trim (replaceAll re_spaces clean).

(* ------------------------------------------------------------------ *)
(** * JSON values and a reference reading of [JSON.parse] *)
(* ------------------------------------------------------------------ *)

Module Json.

#[local] Set Warnings "-register-all".

Inductive json :=
| JNull
| JBool (b : bool)
| JNumber (lexeme : jsstring)
| JString (s : jsstring)
| JArray (items : list json)
| JObject (members : list (jsstring * json)).

(** Property access [o.key] on a parsed object: the last member with that
    name wins, [None] stands for [undefined]. *)
Fixpoint field (key : jsstring) (members : list (jsstring * json)) : option json :=
  match members with
  | [] => None
  | (k, v) :: rest =>
      match field key rest with
      | Some v' => Some v'
      | None => if eqb k key then Some v else None
      end
  end.

Definition get (key : jsstring) (v : json) : option json :=
  match v with
  | JObject members => field key members
  | _ => None
  end.

(** The JSON grammar (ECMA-404).  White space is tab, line feed, carriage
    return and space. *)
Definition is_json_ws (c : N) : bool :=
  ((c =? 9) || (c =? 10) || (c =? 13) || (c =? 32))%N.

Fixpoint skip_ws (s : jsstring) : jsstring :=
  match s with
  | c :: s' => if is_json_ws c then skip_ws s' else s
  | [] => []
  end.

Definition is_digit (c : N) : bool := ((48 <=? c) && (c <=? 57))%N.

Definition is_hex (c : N) : bool :=
  (is_digit c || (65 <=? c) && (c <=? 70) || (97 <=? c) && (c <=? 102))%N.

Definition hex_val (c : N) : N :=
  (if is_digit c then c - 48 else if c <=? 70 then c - 55 else c - 87)%N.

(** Characters of a string literal after the opening quote, up to the
    closing one; [acc] holds the decoded characters in reverse. *)
Fixpoint string_body (s acc : jsstring) : option (jsstring * jsstring) :=
  match s with
  | [] => None
  | c :: s' =>
      if (c =? c_quote)%N then Some (rev acc, s')
      else if (c <? 32)%N then None
      else if (c =? 92)%N then
        match s' with
        | e :: s'' =>
            if (e =? c_quote)%N || (e =? 92)%N || (e =? 47)%N then string_body s'' (e :: acc)
            else if (e =? 98)%N then string_body s'' (8%N :: acc)
            else if (e =? 102)%N then string_body s'' (12%N :: acc)
            else if (e =? 110)%N then string_body s'' (10%N :: acc)
            else if (e =? 114)%N then string_body s'' (13%N :: acc)
            else if (e =? 116)%N then string_body s'' (9%N :: acc)
            else if (e =? 117)%N then
              match s'' with
              | h1 :: h2 :: h3 :: h4 :: rest =>
                  if is_hex h1 && is_hex h2 && is_hex h3 && is_hex h4
                  then string_body rest
                         ((hex_val h1 * 4096 + hex_val h2 * 256
                           + hex_val h3 * 16 + hex_val h4)%N :: acc)
                  else None
              | _ => None
              end
            else None
        | [] => None
        end
      else string_body s' (c :: acc)
  end.

(** A number: an optional minus sign, an integer part without a leading
    zero, an optional fraction and an optional exponent, each with at least
    one digit. *)
Definition number (s : jsstring) : option (jsstring * jsstring) :=
  let '(sign, s1) := match s with
                    | c :: r => if (c =? 45)%N then ([c], r) else ([], s)
                    | [] => ([], s)
                    end in
  let int := span is_digit s1 in
  let s2 := skipn (length int) s1 in
  match int with
  | [] => None
  | d :: more =>
      if (d =? 48)%N && negb (length more =? 0)%nat then None
      else
        let '(frac, s3) :=
          match s2 with
          | c :: r => if (c =? 46)%N
                      then let ds := span is_digit r in (c :: ds, skipn (length ds) r)
                      else ([], s2)
          | [] => ([], s2)
          end in
        if (length frac =? 1)%nat then None
        else
          let '(expo, s4) :=
            match s3 with
            | c :: r =>
                if (c =? 101)%N || (c =? 69)%N then
                  let '(sg, r') := match r with
                                   | x :: r' => if (x =? 43)%N || (x =? 45)%N
                                                then ([x], r') else ([], r)
                                   | [] => ([], r)
                                   end in
                  let ds := span is_digit r' in
                  (c :: sg ++ ds, skipn (length ds) r')
                else ([], s3)
            | [] => ([], s3)
            end in
          match expo with
          | [] => Some (sign ++ int ++ frac, s4)
          | _ => if is_digit (last expo 0%N)
                 then Some (sign ++ int ++ frac ++ expo, s4) else None
          end
  end.

Section Values.
(** Parser of the values nested one level deeper. *)
Variable value : jsstring -> option (json * jsstring).

(** Elements after [[], the first one not yet read. *)
Fixpoint elements (fuel : nat) (s : jsstring) (acc : list json)
  : option (json * jsstring) :=
  match fuel with
  | O => None
  | S fuel' =>
      match value s with
      | Some (v, r) =>
          match skip_ws r with
          | d :: r' =>
              if (d =? c_rbrack)%N then Some (JArray (rev (v :: acc)), r')
              else if (d =? c_comma)%N then elements fuel' r' (v :: acc)
              else None
          | [] => None
          end
      | None => None
      end
  end.

(** Members after [{], the first one not yet read. *)
Fixpoint members (fuel : nat) (s : jsstring) (acc : list (jsstring * json))
  : option (json * jsstring) :=
  match fuel with
  | O => None
  | S fuel' =>
      match skip_ws s with
      | q :: r =>
          if (q =? c_quote)%N then
            match string_body r [] with
            | Some (k, r1) =>
                match skip_ws r1 with
                | colon :: r2 =>
                    if (colon =? 58)%N then
                      match value r2 with
                      | Some (v, r3) =>
                          match skip_ws r3 with
                          | d :: r4 =>
                              if (d =? c_rbrace)%N
                              then Some (JObject (rev ((k, v) :: acc)), r4)
                              else if (d =? c_comma)%N
                              then members fuel' r4 ((k, v) :: acc)
                              else None
                          | [] => None
                          end
                      | None => None
                      end
                    else None
                | [] => None
                end
            | None => None
            end
          else None
      | [] => None
      end
  end.
End Values.

Fixpoint value (fuel : nat) (s : jsstring) : option (json * jsstring) :=
  match fuel with
  | O => None
  | S fuel' =>
      match skip_ws s with
      | [] => None
      | c :: r =>
          if (c =? c_quote)%N then
            match string_body r [] with
            | Some (str, r') => Some (JString str, r')
            | None => None
            end
          else if (c =? c_lbrack)%N then
            match skip_ws r with
            | d :: r' => if (d =? c_rbrack)%N then Some (JArray [], r')
                         else elements (value fuel') fuel' r []
            | [] => None
            end
          else if (c =? 123)%N then
            match skip_ws r with
            | d :: r' => if (d =? c_rbrace)%N then Some (JObject [], r')
                         else members (value fuel') fuel' r []
            | [] => None
            end
          else if startsWith (lit "true") (c :: r) then Some (JBool true, skipn 3 r)
          else if startsWith (lit "false") (c :: r) then Some (JBool false, skipn 4 r)
          else if startsWith (lit "null") (c :: r) then Some (JNull, skipn 3 r)
          else
            match number (c :: r) with
            | Some (lexeme, r') => Some (JNumber lexeme, r')
            | None => None
            end
      end
  end.

(** Reference reading of [JSON.parse]: one value, then nothing but white
    space.  [None] stands for the [SyntaxError] it throws.  The fuel, the
    length of the text plus one, is above both the depth of nesting and the
    number of elements of any array or object written in the text. *)
Definition parse (text : jsstring) : option json :=
  match value (S (length text)) text with
  | Some (v, r) => match skip_ws r with [] => Some v | _ => None end
  | None => None
  end.

End Json.
Import Json.

(* ------------------------------------------------------------------ *)
(** * Data model ([types.ts]) *)
(* ------------------------------------------------------------------ *)

Record ProjectFile := { name : jsstring; content : jsstring }.

Inductive VoiceOption := KORE | FENRIR | PUCK | CHARON | ZEPHYR.

Inductive Platform := TIKTOK | YOUTUBE | INSTAGRAM | GENERIC.

Definition Platform_eqb (a b : Platform) : bool :=
  match a, b with
  | TIKTOK, TIKTOK | YOUTUBE, YOUTUBE | INSTAGRAM, INSTAGRAM | GENERIC, GENERIC => true
  | _, _ => false
  end.

Inductive PlanType := IMAGE | VIDEO.

Record VisualPlanItem := {
  type : PlanType;
  description : jsstring;
  imagePrompt : option jsstring;
  videoStartTime : option float;
  videoEndTime : option float
}.

Inductive AssetType := image | video.

Record VisualAsset := {
  asset_type : AssetType;
  asset_description : jsstring;
  base64 : option jsstring;
  prompt : option jsstring;
  videoUrl : option jsstring;
  videoStart : option float;
  videoEnd : option float
}.

Record VideoFrame := { timestamp : float; frame_base64 : jsstring }.

(** Result of [decodeAudioData(bytes, ctx, sampleRate, channels)]. *)
Record AudioBuffer := { encoded : jsstring; sampleRate : Z; channels : Z }.

(** ** Truthiness *)

(** A number is falsy when it is [0], [-0] or [NaN]. *)
Definition truthy_number (x : float) : bool :=
  negb (PrimFloat.eqb x 0 || negb (PrimFloat.eqb x x)).

(** [x || d] on an optional number. *)
Definition number_or (x : option float) (d : float) : float :=
  match x with
  | Some v => if truthy_number v then v else d
  | None => d
  end.

(** A string is falsy when it is empty. *)
Definition truthy_string (s : jsstring) : bool :=
  match s with [] => false | _ => true end.

(** [x || d] on an optional string. *)
Definition string_or (x : option jsstring) (d : jsstring) : jsstring :=
  match x with
  | Some v => if truthy_string v then v else d
  | None => d
  end.

Definition truthy (x : option jsstring) : bool :=
  match x with Some v => truthy_string v | None => false end.

(* ------------------------------------------------------------------ *)
(** * Effects: requests, delays and exceptions *)
(* ------------------------------------------------------------------ *)

(** A thrown value; [message] is absent when the value carries none. *)
Record error := Error { message : option jsstring }.

Inductive part :=
| InlineData (mimeType data : jsstring)
| Text (text : jsstring).

(** What a run does that can be observed from outside, in order. *)
Inductive event :=
| TtsRequest (text : jsstring) (voice : VoiceOption)
| PlanRequest (parts : list part)
| Connect
| Predict (prompt : jsstring) (width height : Z)
| Fetch (url : jsstring)
| ImageRequest (prompt aspectRatio : jsstring)
| Sleep (ms : Z).

Inductive outcome (A : Type) :=
| Return (a : A)
| Throw (e : error).
Arguments Return {A} a.
Arguments Throw {A} e.

(** What a provider does with a request. *)
Inductive reply (A : Type) :=
| Answers (a : A)
| Fails (e : error).
Arguments Answers {A} a.
Arguments Fails {A} e.

Module IO.

Definition io (A : Type) : Type := (list event * outcome A)%type.

Definition ret {A} (a : A) : io A := ([], Return a).

Definition throw {A} (e : error) : io A := ([], Throw e).

Definition bind {A B} (m : io A) (f : A -> io B) : io B :=
  match m with
  | (t, Return a) => let '(t', r) := f a in (t ++ t', r)
  | (t, Throw e) => (t, Throw e)
  end.

(** [try { m } catch (e) { h e }] *)
Definition try_catch {A} (m : io A) (h : error -> io A) : io A :=
  match m with
  | (t, Throw e) => let '(t', r) := h e in (t ++ t', r)
  | (_, Return _) => m
  end.

Definition emit (ev : event) : io unit := ([ev], Return tt).

(** [await] of a request: the event is recorded, the reply decides between
    a value and an exception. *)
Definition request {A} (ev : event) (r : reply A) : io A :=
  ([ev], match r with Answers a => Return a | Fails e => Throw e end).

(** [await new Promise(resolve => setTimeout(resolve, ms))] *)
Definition sleep (ms : Z) : io unit := emit (Sleep ms).

Definition trace {A} (m : io A) : list event := fst m.
Definition result {A} (m : io A) : outcome A := snd m.

End IO.
Import IO.

Declare Scope io_scope.
Delimit Scope io_scope with io.
Notation "x <- m ;; k" := (bind m (fun x => k))
  (at level 61, m at next level, right associativity) : io_scope.
Notation "m ;; k" := (bind m (fun _ => k))
  (at level 61, right associativity) : io_scope.
Open Scope io_scope.

(** The events of a trace that are attempts on the providers. *)
Definition is_tts_request (ev : event) : bool :=
  match ev with TtsRequest _ _ => true | _ => false end.
Definition is_connect (ev : event) : bool :=
  match ev with Connect => true | _ => false end.

Definition sleeps (t : list event) : list Z :=
  flat_map (fun ev => match ev with Sleep ms => [ms] | _ => [] end) t.

(** ** The outside world

    What the providers and the built-in functions outside the repository do.
    Replies are indexed by the attempt that asks. *)
Record World := {
  (** [JSON.parse], which answers with the value or throws. *)
  JSON_parse : jsstring -> reply json;
  (** Conversion of a number inside a template literal. *)
  Number_toString : float -> jsstring;
  (** TTS model: the audio payload
      [response.candidates?.[0]?.content?.parts?.[0]?.inlineData?.data]. *)
  tts_reply : Z -> reply (option jsstring);
  (** [decodeBase64] followed by [decodeAudioData]: the exception thrown on
      a payload, if any. *)
  decode_error : jsstring -> option error;
  (** Planning model: [response.text]. *)
  plan_reply : reply (option jsstring);
  (** [Client.connect]: the exception thrown at an attempt, if any. *)
  connect_error : Z -> option error;
  (** [client.predict]: [result.data?.[0]]. *)
  predict_reply : Z -> reply (option (jsstring + option jsstring));
  (** [fetch], [blob] and [blobToBase64] of an image URL. *)
  download_reply : jsstring -> reply (option jsstring);
  (** Image model: [inlineData?.data] of each part of the first candidate,
      [None] when the response has no parts. *)
  image_reply : reply (option (list (option jsstring)))
}.

(* ------------------------------------------------------------------ *)
(** * [services/geminiService.ts] *)
(* ------------------------------------------------------------------ *)

(** [for (let i = lo; i < lo + n; i++)]: the values the counter takes. *)
Definition counting (lo : nat) (n : nat) : list Z := List.map Z.of_nat (seq lo n).

Definition quoted (s : jsstring) : jsstring := c_quote :: s ++ [c_quote].

Fixpoint join (sep : jsstring) (l : list jsstring) : jsstring :=
  match l with
  | [] => []
  | [x] => x
  | x :: rest => x ++ sep ++ join sep rest
  end.

(** [enhancedPrompt] of [generateWithFlux]. *)
Definition enhanced (p : jsstring) : jsstring :=
  p ++ lit ", photorealistic, 8k, highly detailed, cinematic lighting, award winning photography, sharp focus, high fidelity".

(** [imageUrl] of [generateWithFlux]:
    [(typeof imageInfo === 'string') ? imageInfo : imageInfo?.url]. *)
Definition image_url (imageInfo : option (jsstring + option jsstring)) : option jsstring :=
  match imageInfo with
  | Some (inl s) => Some s
  | Some (inr url) => url
  | None => None
  end.

Section Services.

Variable w : World.

(** ** Voice synthesizer *)

Definition tts_attempt (cleanText : jsstring) (voice : VoiceOption) (attempt : Z)
  : io (AudioBuffer * jsstring) :=
  base64Audio <- request (TtsRequest cleanText voice) (tts_reply w attempt) ;;
  if negb (truthy base64Audio)
  then throw (Error (Some (lit "No audio data received from API.")))
  else
    let data := string_or base64Audio [] in
    match decode_error w data with
    | Some e => throw e
    | None => ret ({| encoded := data; sampleRate := 24000; channels := 1 |}, data)
    end.

(** The retry loop; [inl] is the [return] inside the [try], [inr] the value of
    [lastError] when the loop runs out. *)
Fixpoint tts_loop (cleanText : jsstring) (voice : VoiceOption)
         (attempts : list Z) (lastError : option error)
  : io ((AudioBuffer * jsstring) + option error) :=
  match attempts with
  | [] => ret (inr lastError)
  | attempt :: rest =>
      r <- try_catch
             (x <- tts_attempt cleanText voice attempt ;; ret (inl x))
             (fun e => sleep (2000 * (attempt + 1)) ;; ret (inr e)) ;;
      match r with
      | inl x => ret (inl x)
      | inr e => tts_loop cleanText voice rest (Some e)
      end
  end.

Definition empty_script_error : error :=
  Error (Some (lit "Script is empty (or contained only unreadable content).")).

Definition generateVoiceover (text : jsstring) (voice : VoiceOption)
  : io (AudioBuffer * jsstring) :=
  let cleanText := cleanScriptForTTS text in
  if negb (truthy_string cleanText) then throw empty_script_error
  else
    r <- tts_loop cleanText voice (counting 0 3) None ;;
    match r with
    | inl x => ret x
    | inr lastError =>
        throw (Error (Some
          (lit "Failed to generate audio after 3 attempts. "
           ++ string_or (match lastError with
                         | Some e => message e
                         | None => None
                         end) [])))
    end.

(** ** Visual planner *)

Definition MAX_CONTEXT_FRAMES : nat := 5.

(** [Math.ceil(n / d)] on array lengths: the quotient of two such integers
    is never rounded onto a whole number it does not equal, so the integer
    formula gives the same value. *)
Definition ceil_div (n d : nat) : nat := (n + d - 1) / d.

Definition frame_parts (f : VideoFrame) : list part :=
  [ InlineData (lit "image/jpeg") (frame_base64 f);
    Text (lit "[Timestamp: " ++ Number_toString w (timestamp f) ++ lit "s]") ].

(** The sampling loop [for (let i = 0; i < videoFrames.length; i += step)],
    with the counter and the parts pushed so far; [None] when the fuel runs
    out before the loop ends.  The guard [i < videoFrames.length] makes
    [videoFrames[i]] a frame. *)
Fixpoint frame_loop (fuel : nat) (videoFrames : list VideoFrame) (step i : nat)
         (frameParts : list part) : option (list part) :=
  match fuel with
  | O => None
  | S fuel' =>
      if (i <? length videoFrames)%nat then
        if (MAX_CONTEXT_FRAMES <=? length frameParts / 2)%nat then Some frameParts
        else
          match nth_error videoFrames i with
          | Some f => frame_loop fuel' videoFrames step (i + step)
                        (frameParts ++ frame_parts f)
          | None => Some frameParts
          end
      else Some frameParts
  end.

Definition sample_frames (videoFrames : list VideoFrame) : option (list part) :=
  let step := ceil_div (length videoFrames) MAX_CONTEXT_FRAMES in
  frame_loop (S (length videoFrames)) videoFrames step 0 [].

Definition scene (d p : string) : json :=
  JObject [ (lit "type", JString (lit "IMAGE"));
            (lit "description", JString (lit d));
            (lit "imagePrompt", JString (lit p)) ].

Definition fallback_plan : json :=
  JArray
    [ scene "Intro" "Futuristic app dashboard glowing 3d render, purple and blue neon";
      scene "Feature Highlight" "Abstract code visualization high tech blue and purple";
      scene "User Benefit" "Happy user holding phone modern style, photorealistic";
      scene "Call to Action" "Sleek product logo minimalist background, cinematic lighting" ].

Definition plan_prompt (script fileContext frameContext : jsstring) : jsstring :=
  lit "
    You are a video director. 
    Script: " ++ quoted script ++ lit "
    
    Source Code Context: " ++ fileContext ++ lit "
    
    " ++ frameContext ++ lit "

    TASK:
    Break the script into 4-6 visual scenes. 
    For each scene, decide whether to generate a NEW AI image ('IMAGE') or use a clip from the demo video ('VIDEO').
    
    RULES:
    1. Use 'VIDEO' ONLY if the uploaded frames clearly show the feature mentioned in that part of the script.
    2. If 'VIDEO', provide the start and end timestamp based on the provided frames.
    3. If 'IMAGE', provide a highly detailed prompt for an AI image generator (modern, 3D, high-tech style).
    4. Keep descriptions and prompts concise (under 50 words).

    OUTPUT:
    Return a raw JSON Array of objects. Do not include markdown formatting.
    Schema:
    [
      {
        " ++ quoted (lit "type") ++ lit ": " ++ quoted (lit "IMAGE") ++ lit " | " ++ quoted (lit "VIDEO") ++ lit ",
        " ++ quoted (lit "description") ++ lit ": " ++ quoted (lit "string") ++ lit ",
        " ++ quoted (lit "imagePrompt") ++ lit ": " ++ quoted (lit "string") ++ lit ",
        " ++ quoted (lit "videoStartTime") ++ lit ": number,
        " ++ quoted (lit "videoEndTime") ++ lit ": number
      }
    ]
  ".

(** [fileContext] of [generateVisualPlan]. *)
Definition file_context (files : list ProjectFile) : jsstring :=
  firstn 5000
    (join (lit "

")
       (List.map (fun f => name f ++ lit ":
" ++ firstn 1000 (content f)) files)).

Definition frame_context : jsstring :=
  lit "I have uploaded frames from a demo video of the app. Use 'VIDEO' type if a frame matches the script content.".

Definition generateVisualPlan (script : jsstring) (files : list ProjectFile)
           (videoFrames : option (list VideoFrame)) : io json :=
  let fileContext := file_context files in
  let '(frameContext, frameParts) :=
    match videoFrames with
    | Some frames =>
        if (0 <? length frames)%nat then
          (frame_context,
           match sample_frames frames with Some parts => parts | None => [] end)
        else ([], [])
    | None => ([], [])
    end in
  let textPrompt := plan_prompt script fileContext frameContext in
  try_catch
    (response <- request (PlanRequest (frameParts ++ [Text textPrompt])) (plan_reply w) ;;
     let jsonText := cleanJson (string_or response (lit "[]")) in
     match JSON_parse w jsonText with
     | Answers plan => ret plan
     | Fails parseError => throw parseError
     end)
    (fun e => ret fallback_plan).

(** ** Image generation strategies *)

Definition MAX_RETRIES : Z := 3.
Definition INITIAL_DELAY : Z := 2000.

(** [Math.pow(1.5, attempt) * INITIAL_DELAY]; the value is a whole number at
    the attempts after which the loop waits (1 and 2). *)
Definition flux_delay (attempt : Z) : Z := 3 ^ attempt * INITIAL_DELAY / 2 ^ attempt.

(** The body of the [try] of one attempt. *)
Definition flux_attempt (p : jsstring) (width height : Z) (attempt : Z)
  : io (option jsstring) :=
  let enhancedPrompt := enhanced p in
  request Connect (match connect_error w attempt with
                   | Some e => Fails e
                   | None => Answers tt
                   end) ;;
  imageInfo <- request (Predict enhancedPrompt width height) (predict_reply w attempt) ;;
  let imageUrl := image_url imageInfo in
  if truthy imageUrl
  then request (Fetch (string_or imageUrl [])) (download_reply w (string_or imageUrl []))
  else ret None.

(** The retry loop; [Some x] is a [return x] inside the [try], [None] an
    exception that was caught. *)
Fixpoint flux_loop (p : jsstring) (width height : Z) (attempts : list Z)
  : io (option jsstring) :=
  match attempts with
  | [] => ret None
  | attempt :: rest =>
      r <- try_catch
             (x <- flux_attempt p width height attempt ;; ret (Some x))
             (fun e =>
                (if (attempt =? MAX_RETRIES)%Z then ret tt
                 else sleep (flux_delay attempt)) ;;
                ret None) ;;
      match r with
      | Some x => ret x
      | None => flux_loop p width height rest
      end
  end.

Definition generateWithFlux (p : jsstring) (width height : Z) : io (option jsstring) :=
  flux_loop p width height (counting 1 (Z.to_nat MAX_RETRIES)).

Definition generateWithGemini (p : jsstring) (platform : Platform)
  : io (option jsstring) :=
  try_catch
    (let aspectRatio :=
       if Platform_eqb platform TIKTOK || Platform_eqb platform INSTAGRAM
       then lit "9:16"
       else if Platform_eqb platform YOUTUBE || Platform_eqb platform GENERIC
            then lit "16:9"
            else lit "1:1" in
     parts <- request (ImageRequest p aspectRatio) (image_reply w) ;;
     ret (match parts with
          | Some ps => match find truthy ps with
                       | Some data => data
                       | None => None
                       end
          | None => None
          end))
    (fun e => ret None).

Definition generateAsset (planItem : VisualPlanItem) (platform : Platform)
  : io (option VisualAsset) :=
  match type planItem with
  | VIDEO =>
      ret (Some {| asset_type := video;
                   asset_description := description planItem;
                   base64 := None; prompt := None; videoUrl := None;
                   videoStart := Some (number_or (videoStartTime planItem) 0);
                   videoEnd := Some (number_or (videoEndTime planItem) 5) |})
  | IMAGE =>
      let isPortrait := Platform_eqb platform TIKTOK || Platform_eqb platform INSTAGRAM in
      let width := (if isPortrait then 768 else 1024)%Z in
      let height := (if isPortrait then 1024 else 768)%Z in
      let p := string_or (imagePrompt planItem) (description planItem) in
      fluxBase64 <- generateWithFlux p width height ;;
      if truthy fluxBase64 then
        ret (Some {| asset_type := image;
                     asset_description := description planItem;
                     base64 := fluxBase64; prompt := Some p; videoUrl := None;
                     videoStart := None; videoEnd := None |})
      else
        geminiBase64 <- generateWithGemini p platform ;;
        if truthy geminiBase64 then
          ret (Some {| asset_type := image;
                       asset_description := description planItem;
                       base64 := geminiBase64; prompt := Some p; videoUrl := None;
                       videoStart := None; videoEnd := None |})
        else ret None
  end.

End Services.

(* ------------------------------------------------------------------ *)
(** * Archive text extraction ([extractTextFromZip]) *)
(* ------------------------------------------------------------------ *)

Module Zip.

(** An entry of the loaded archive: the [dir] flag and the text that
    [async('string')] decodes. *)
Record ZipEntry := { dir : bool; text : jsstring }.

(** [contents.files]: the entries by name, in the order of [Object.keys]. *)
Definition ZipFiles := list (jsstring * ZipEntry).

Fixpoint lookup (filename : jsstring) (files : ZipFiles) : option ZipEntry :=
  match files with
  | [] => None
  | (k, e) :: rest => if eqb k filename then Some e else lookup filename rest
  end.

Definition RELEVANT_EXTENSIONS : list jsstring :=
  List.map lit [ ".txt"; ".md"; ".json"; ".js"; ".ts"; ".tsx"; ".jsx";
                 ".html"; ".css"; ".py"; ".java"; ".c"; ".cpp"; ".h" ]%string.

Definition MAX_FILES : nat := 50.
Definition MAX_TOTAL_SIZE : Z := 500 * 1024.

(** [Array.prototype.sort] with a comparator: a stable sort. *)
Fixpoint insert {A} (cmp : A -> A -> Z) (x : A) (l : list A) : list A :=
  match l with
  | [] => [x]
  | y :: l' => if (cmp x y <=? 0)%Z then x :: l else y :: insert cmp x l'
  end.

Definition sort {A} (cmp : A -> A -> Z) (l : list A) : list A :=
  fold_right (insert cmp) [] l.

Definition readme_score (a : jsstring) : Z :=
  if includes (toLowerCase a) (lit "readme") then -1 else 1.

Definition isRelevant (filename : jsstring) : bool :=
  existsb (fun ext => endsWith (toLowerCase filename) ext) RELEVANT_EXTENSIONS.

(** [textContent.length] *)
Definition size (s : jsstring) : Z := Z.of_nat (length s).

(** The loop over [sortedEntries], with [files] and [totalSize] as they stand
    when the entry is reached.  Reading [dir] of an entry that is not in the
    archive throws. *)
Fixpoint extract_loop (contents : ZipFiles) (sortedEntries : list jsstring)
         (files : list ProjectFile) (totalSize : Z) : outcome (list ProjectFile) :=
  match sortedEntries with
  | [] => Return files
  | filename :: rest =>
      if (MAX_FILES <=? length files)%nat then Return files
      else if (MAX_TOTAL_SIZE <=? totalSize)%Z then Return files
      else
        match lookup filename contents with
        | None => Throw (Error (Some (lit "Cannot read properties of undefined (reading 'dir')")))
        | Some fileEntry =>
            if dir fileEntry then extract_loop contents rest files totalSize
            else if negb (isRelevant filename) then extract_loop contents rest files totalSize
            else
              let textContent := text fileEntry in
              if includes textContent [0%N] then extract_loop contents rest files totalSize
              else extract_loop contents rest
                     (files ++ [ {| name := filename; content := textContent |} ])
                     (totalSize + size textContent)
        end
  end.

(** The promise settles with the files, or is rejected with what reading or
    loading the archive threw. *)
Definition extractTextFromZip (loaded : reply ZipFiles) : outcome (list ProjectFile) :=
  match loaded with
  | Fails err => Throw err
  | Answers contents =>
      let entries := List.map fst contents in
      let sortedEntries := sort (fun a b => readme_score a - readme_score b)%Z entries in
      extract_loop contents sortedEntries [] 0
  end.

Definition total_size (files : list ProjectFile) : Z :=
  fold_right (fun f acc => size (content f) + acc)%Z 0%Z files.

End Zip.

(* ------------------------------------------------------------------ *)
(** * Script generator and data-URL decoding ([services/geminiService.ts]) *)
(* ------------------------------------------------------------------ *)

(** Value of a member of the [Platform] enumeration ([types.ts]), as a
    template literal prints it. *)
Definition platform_value (platform : Platform) : jsstring :=
  match platform with
  | TIKTOK => lit "TikTok"
  | YOUTUBE => lit "YouTube"
  | INSTAGRAM => lit "Instagram"
  | GENERIC => lit "General Ad"
  end.

(** The [switch] of [generateSalesScript]. *)
Definition platformInstructions (platform : Platform) : jsstring :=
  match platform with
  | YOUTUBE => lit "FORMAT: Educational tutorial style. Tone: Authoritative, helpful."
  | TIKTOK => lit "FORMAT: Viral TikTok style. High energy. Start with a hook. Tone: Hype, fast."
  | INSTAGRAM => lit "FORMAT: Aesthetic Instagram Reel. Tone: Trendy, polished."
  | GENERIC => lit "FORMAT: Standard ad. Tone: Professional, persuasive."
  end.

(** [fileContext] of [generateSalesScript]. *)
Definition script_file_context (files : list ProjectFile) : jsstring :=
  join (lit "

")
    (List.map (fun f => lit "--- FILE: " ++ name f ++ lit " ---
" ++ firstn (Z.to_nat 10000) (content f)) files).

Definition script_prompt (fileContext : jsstring) (platform : Platform) : jsstring :=
  lit "
    You are a viral content creator.
    TASK: Write a 30-45 second voiceover script for " ++ platform_value platform ++ lit ".
    
    TONE: Conversational, authentic.
    " ++ platformInstructions platform ++ lit "
    
    CRITICAL: 
    1. The script must LOOP seamlessly.
    2. Output ONLY the spoken words. 
    3. Do NOT include " ++ quoted (lit "Speaker:") ++ lit " labels, scene descriptions, music cues, or stage directions in brackets.
    
    PROJECT FILES:
    " ++ fileContext ++ lit "
  ".

(** [generateSalesScript]; [generate] is the script model: what it does with
    the prompt it is sent, the value answered being [response.text]. *)
Definition generateSalesScript (generate : jsstring -> reply (option jsstring))
           (files : list ProjectFile) (platform : Platform)
           (referenceUrl : option jsstring) : outcome jsstring :=
  let fileContext := script_file_context files in
  let prompt := script_prompt fileContext platform in
  match generate prompt with
  | Answers text => Return (string_or text (lit "Failed to generate script."))
  | Fails error => Throw (Error (Some (lit "Failed to generate script.")))
  end.

(** [String.prototype.split] with a separator of one character. *)
Fixpoint split (sep : N) (s : jsstring) : list jsstring :=
  match s with
  | [] => [[]]
  | c :: s' =>
      if (c =? sep)%N then [] :: split sep s'
      else match split sep s' with
           | piece :: pieces => (c :: piece) :: pieces
           | [] => [[c]]
           end
  end.

(** [blobToBase64]: the promise settles with [res.split(',')[1]], [None]
    standing for [undefined], where [res] is what [readAsDataURL] delivers,
    and is rejected when the reader fails. *)
Definition blobToBase64 (readAsDataURL : reply jsstring) : outcome (option jsstring) :=
  match readAsDataURL with
  | Answers res => Return (nth_error (split c_comma res) 1)
  | Fails err => Throw err
  end.

(* ------------------------------------------------------------------ *)
(** * Concrete worlds and inputs *)
(* ------------------------------------------------------------------ *)

Definition unavailable : error := Error (Some (lit "Service unavailable")).

(** Decimal digits of a natural number. *)
Fixpoint decimal (fuel : nat) (n : N) (acc : jsstring) : jsstring :=
  match fuel with
  | O => acc
  | S fuel' =>
      let acc' := (48 + n mod 10)%N :: acc in
      if (n <? 10)%N then acc' else decimal fuel' (n / 10)%N acc'
  end.

(** The whole number from [k] on, within the fuel, that the float [x] is
    equal to ([fk] is [k] as a float). *)
Fixpoint whole_number (fuel : nat) (k : N) (fk x : float) : option N :=
  if PrimFloat.eqb fk x then Some k
  else match fuel with
       | O => None
       | S fuel' => whole_number fuel' (k + 1)%N (PrimFloat.add fk 1) x
       end.

(** How the worlds below print a number inside a template literal: as
    JavaScript does on the whole numbers from 0 to 3600 (timestamps in whole
    seconds, [-0] included, printed [0]) and on [NaN].  The worlds are used
    with such numbers only; any other number is answered like [NaN]. *)
Definition print_number (x : float) : jsstring :=
  match whole_number 3600 0 0 x with
  | Some k => decimal 4 k []
  | None => lit "NaN"
  end.

Definition reference_parse (text : jsstring) : reply json :=
  match Json.parse text with
  | Some v => Answers v
  | None => Fails (Error (Some (lit "Unexpected token in JSON")))
  end.

(** Every provider refuses every request. *)
Definition failing_world : World := {|
  JSON_parse := reference_parse;
  Number_toString := print_number;
  tts_reply := fun _ => Fails unavailable;
  decode_error := fun _ => None;
  plan_reply := Fails unavailable;
  connect_error := fun _ => Some unavailable;
  predict_reply := fun _ => Fails unavailable;
  download_reply := fun _ => Fails unavailable;
  image_reply := Fails unavailable
|}.

(** The image space answers the first attempt with a result that holds no
    URL; later attempts would deliver an image. *)
Definition no_url_world : World := {|
  JSON_parse := reference_parse;
  Number_toString := print_number;
  tts_reply := fun _ => Fails unavailable;
  decode_error := fun _ => None;
  plan_reply := Fails unavailable;
  connect_error := fun _ => None;
  predict_reply := fun attempt =>
    if (attempt =? 1)%Z then Answers None
    else Answers (Some (inl (lit "https://space.example/image.png")));
  download_reply := fun _ => Answers (Some (lit "aGVsbG8="));
  image_reply := Answers None
|}.

(** The same, except that the first attempt throws. *)
Definition throwing_world : World := {|
  JSON_parse := reference_parse;
  Number_toString := print_number;
  tts_reply := fun _ => Fails unavailable;
  decode_error := fun _ => None;
  plan_reply := Fails unavailable;
  connect_error := fun _ => None;
  predict_reply := fun attempt =>
    if (attempt =? 1)%Z then Fails unavailable
    else Answers (Some (inl (lit "https://space.example/image.png")));
  download_reply := fun _ => Answers (Some (lit "aGVsbG8="));
  image_reply := Answers None
|}.

(** The planning model answers without any text. *)
Definition silent_world : World := {|
  JSON_parse := reference_parse;
  Number_toString := print_number;
  tts_reply := fun _ => Fails unavailable;
  decode_error := fun _ => None;
  plan_reply := Answers None;
  connect_error := fun _ => Some unavailable;
  predict_reply := fun _ => Fails unavailable;
  download_reply := fun _ => Fails unavailable;
  image_reply := Answers None
|}.

(** The planning model answers with text that is not JSON. *)
Definition chatty_world : World := {|
  JSON_parse := reference_parse;
  Number_toString := print_number;
  tts_reply := fun _ => Fails unavailable;
  decode_error := fun _ => None;
  plan_reply := Answers (Some (lit "Sorry, I cannot help with that."));
  connect_error := fun _ => Some unavailable;
  predict_reply := fun _ => Fails unavailable;
  download_reply := fun _ => Fails unavailable;
  image_reply := Answers None
|}.

(** The indices [0, s, 2s, ...] below [n]. *)
Definition stride_indices (n s : nat) : list nat :=
  List.map (fun k => k * s)%nat (seq 0 (ceil_div n s)).

(** The parts pushed for the frames at the given indices. *)
Definition parts_at (w : World) (videoFrames : list VideoFrame) (indices : list nat)
  : list part :=
  flat_map (fun i => match nth_error videoFrames i with
                     | Some f => frame_parts w f
                     | None => []
                     end) indices.

(** The response of the planning model given in the specification: a
    fenced array with one scene and two trailing commas. *)
Definition fenced_plan : jsstring :=
  lit "```json" ++ [c_nl]
  ++ lit "[{" ++ quoted (lit "type") ++ lit ":" ++ quoted (lit "IMAGE")
  ++ lit "," ++ quoted (lit "description") ++ lit ":" ++ quoted (lit "Intro")
  ++ lit ",},]" ++ [c_nl] ++ lit "```".

Definition fenced_plan_cleaned : jsstring :=
  lit "[{" ++ quoted (lit "type") ++ lit ":" ++ quoted (lit "IMAGE")
  ++ lit "," ++ quoted (lit "description") ++ lit ":" ++ quoted (lit "Intro")
  ++ lit "}]".

(** An archive with one text file of 512001 characters. *)
Definition long_text : jsstring := repeat 97%N (Z.to_nat 512001).

Definition long_archive : Zip.ZipFiles :=
  [ (lit "notes.txt", {| Zip.dir := false; Zip.text := long_text |}) ].

(** What every extracted file satisfies. *)
Definition extracted_ok (f : ProjectFile) : Prop :=
  Zip.isRelevant (name f) = true /\ includes (content f) [0%N] = false.

(** Number of attempts on the image space recorded in a trace. *)
Definition attempts (t : list event) : nat := length (filter is_connect t).

(** Resolution and aspect ratio by orientation, as the specification gives
    them. *)
Definition spec_dimensions (platform : Platform) : Z * Z :=
  match platform with
  | TIKTOK | INSTAGRAM => (768, 1024)%Z
  | YOUTUBE | GENERIC => (1024, 768)%Z
  end.

Definition spec_aspect (platform : Platform) : jsstring :=
  match platform with
  | TIKTOK | INSTAGRAM => lit "9:16"
  | YOUTUBE | GENERIC => lit "16:9"
  end.

Definition request_matches (platform : Platform) (ev : event) : Prop :=
  match ev with
  | Predict _ width height => (width, height) = spec_dimensions platform
  | ImageRequest _ aspectRatio => aspectRatio = spec_aspect platform
  | _ => True
  end.

(** ** Notions used to state properties *)

(** The next character that is not white space is a closing bracket. *)
Definition closes_next (s : jsstring) : bool :=
  match skipn (length (span is_space s)) s with
  | d :: _ => (d =? c_rbrack)%N || (d =? c_rbrace)%N
  | [] => false
  end.

(** The textual rule of trailing commas: the text without the commas that
    are followed, after white space if any, by [[]]] or [}].  The rule looks
    at characters only: a comma inside a string literal counts like any
    other. *)
Fixpoint without_trailing_commas (s : jsstring) : jsstring :=
  match s with
  | [] => []
  | c :: s' =>
      if (c =? c_comma)%N && closes_next s'
      then without_trailing_commas s'
      else c :: without_trailing_commas s'
  end.

(** A fenced array, itself well formed, with a string that holds a comma
    before a bracket. *)
Definition fenced_string_array : jsstring :=
  lit "Here you go: ```json" ++ [c_nl]
  ++ lit "[" ++ quoted (lit "x,]") ++ lit "]" ++ [c_nl] ++ lit "``` Enjoy.".

(** The text does not start with white space. *)
Definition starts_clean (s : jsstring) : Prop :=
  match s with
  | c :: _ => is_space c = false
  | [] => True
  end.

(** The text does not end with white space. *)
Definition ends_clean (s : jsstring) : Prop := starts_clean (rev s).

(** Every white-space character of the text is a plain space. *)
Definition plain_spaces (s : jsstring) : Prop :=
  Forall (fun c => is_space c = true -> c = c_space) s.

(** No two white-space characters of the text are next to each other. *)
Definition no_space_run (s : jsstring) : Prop :=
  forall (a b : N) (before after : jsstring),
    s = before ++ a :: b :: after -> is_space a = true -> is_space b = false.

(** Checker of [plain_spaces] and [no_space_run] together. *)
Fixpoint single_spaced (s : jsstring) : bool :=
  match s with
  | [] => true
  | c :: s' =>
      (if is_space c
       then (c =? c_space)%N
            && match s' with d :: _ => negb (is_space d) | [] => true end
       else true)
      && single_spaced s'
  end.

(** Number of backquotes the text starts with. *)
Fixpoint leading_ticks (s : jsstring) : nat :=
  match s with
  | c :: s' => if (c =? c_tick)%N then S (leading_ticks s') else 0
  | [] => 0
  end.

(** [l1] is [l2] with some elements left out. *)
Inductive subseq {A : Type} : list A -> list A -> Prop :=
| subseq_nil : subseq [] []
| subseq_skip (x : A) (l1 l2 : list A) : subseq l1 l2 -> subseq l1 (x :: l2)
| subseq_keep (x : A) (l1 l2 : list A) : subseq l1 l2 -> subseq (x :: l1) (x :: l2).

(** The file with its content cut after [n] characters. *)
Definition truncated (n : nat) (f : ProjectFile) : ProjectFile :=
  {| name := name f; content := firstn n (content f) |}.

(** The entry name holds the word looked for by the sort of the archive. *)
Definition is_readme (a : jsstring) : bool := includes (toLowerCase a) (lit "readme").

(** The file comes from the archive: an entry that is not a directory has
    its name and its text. *)
Definition from_archive (contents : Zip.ZipFiles) (f : ProjectFile) : Prop :=
  exists fileEntry,
    Zip.lookup (name f) contents = Some fileEntry
    /\ Zip.dir fileEntry = false
    /\ Zip.text fileEntry = content f.

(** The image asset built by [generateAsset]. *)
Definition image_asset (planItem : VisualPlanItem) (data : option jsstring) : VisualAsset :=
  {| asset_type := image;
     asset_description := description planItem;
     base64 := data;
     prompt := Some (string_or (imagePrompt planItem) (description planItem));
     videoUrl := None; videoStart := None; videoEnd := None |}.

(** A world in which the second TTS attempt and the second attempt on the
    image space succeed, after a first attempt that fails. *)
Definition recovering_world : World := {|
  JSON_parse := reference_parse;
  Number_toString := print_number;
  tts_reply := fun attempt =>
    if (attempt =? 0)%Z then Fails unavailable else Answers (Some (lit "UklGRg=="));
  decode_error := fun _ => None;
  plan_reply := Fails unavailable;
  connect_error := fun attempt => if (attempt =? 1)%Z then Some unavailable else None;
  predict_reply := fun _ => Answers (Some (inr (Some (lit "https://space.example/image.png"))));
  download_reply := fun _ => Answers (Some (lit "aGVsbG8="));
  image_reply := Answers (Some [None; Some []; Some (lit "iVBORw0KGgo="); Some (lit "AAAA")])
|}.

(** An archive with a directory, files of several kinds and two readme
    files. *)
Definition sample_archive : Zip.ZipFiles :=
  [ (lit "src/", {| Zip.dir := true; Zip.text := [] |});
    (lit "src/main.TS", {| Zip.dir := false; Zip.text := lit "export {}" |});
    (lit "logo.png", {| Zip.dir := false; Zip.text := lit "PNG" |});
    (lit "data.json", {| Zip.dir := false; Zip.text := [123; 0; 125]%N |});
    (lit "README.md", {| Zip.dir := false; Zip.text := lit "# Demo" |});
    (lit "docs/readme.txt", {| Zip.dir := false; Zip.text := lit "Usage" |}) ].

(* ------------------------------------------------------------------ *)
(** * Properties *)
(* ------------------------------------------------------------------ *)

(** ** Traces of composed computations *)

Lemma trace_bind {A B} (m : io A) (f : A -> io B) :
  trace (bind m f) =
  trace m ++ match result m with
             | Return a => trace (f a)
             | Throw _ => []
             end.
Proof.
  destruct m as [t [a | e]]; simpl.
  - destruct (f a); reflexivity.
  - now rewrite app_nil_r.
Qed.

Lemma io_eta {A} (m : io A) : m = (trace m, result m).
Proof. now destruct m. Qed.

(** ** Asset generator: video items *)

(** C9. A VIDEO plan item without timestamps makes no generation call (the
    trace is empty) and yields a video asset with [videoStart = 0] and
    [videoEnd = 5]. *)
Theorem generateAsset_video_defaults
        (w : World) (d : jsstring) (ip : option jsstring) (platform : Platform) :
  generateAsset w {| type := VIDEO; description := d; imagePrompt := ip;
                     videoStartTime := None; videoEndTime := None |} platform
  = ([], Return (Some {| asset_type := video; asset_description := d;
                         base64 := None; prompt := None; videoUrl := None;
                         videoStart := Some 0%float;
                         videoEnd := Some 5%float |})).
Proof. reflexivity. Qed.

(** C10. The defaults of a VIDEO item apply to falsy timestamps as well: an
    end time of 0 gives [videoEnd = 5], and a start time of 0 gives the same
    asset as an absent one. *)
Theorem generateAsset_video_falsy_defaults
        (w : World) (d : jsstring) (ip : option jsstring)
        (st en : option float) (platform : Platform) :
  (exists a,
      generateAsset w {| type := VIDEO; description := d; imagePrompt := ip;
                         videoStartTime := st; videoEndTime := Some 0%float |} platform
      = ([], Return (Some a))
      /\ videoEnd a = Some 5%float)
  /\ generateAsset w {| type := VIDEO; description := d; imagePrompt := ip;
                        videoStartTime := Some 0%float; videoEndTime := en |} platform
     = generateAsset w {| type := VIDEO; description := d; imagePrompt := ip;
                          videoStartTime := None; videoEndTime := en |} platform.
Proof.
  split.
  - eexists. split; reflexivity.
  - reflexivity.
Qed.

(** ** Voice synthesizer *)

Lemma tts_attempt_trace (w : World) (ct : jsstring) (v : VoiceOption) (a : Z) :
  trace (tts_attempt w ct v a) = [TtsRequest ct v].
Proof.
  unfold tts_attempt, request, bind.
  destruct (tts_reply w a) as [[data |] | e]; simpl; try reflexivity.
  destruct (truthy_string data); simpl; try reflexivity.
  destruct (decode_error w _); reflexivity.
Qed.

Lemma tts_loop_failed_attempt
      (w : World) (ct : jsstring) (v : VoiceOption) (a : Z) (rest : list Z)
      (last : option error) (e : error) :
  result (tts_attempt w ct v a) = Throw e ->
  tts_loop w ct v (a :: rest) last =
  (TtsRequest ct v :: Sleep (2000 * (a + 1)) :: trace (tts_loop w ct v rest (Some e)),
   result (tts_loop w ct v rest (Some e))).
Proof.
  intros Hfail. cbn [tts_loop].
  rewrite (io_eta (tts_attempt w ct v a)), tts_attempt_trace, Hfail. simpl.
  now destruct (tts_loop w ct v rest (Some e)).
Qed.

(** C7. A text whose cleaned form is empty makes [generateVoiceover] throw
    the empty-script error without any request being sent. *)
Theorem generateVoiceover_empty_script
        (w : World) (text : jsstring) (voice : VoiceOption) :
  cleanScriptForTTS text = [] ->
  generateVoiceover w text voice
  = ([], Throw (Error (Some
       (lit "Script is empty (or contained only unreadable content).")))).
Proof. intros Hclean. unfold generateVoiceover. now rewrite Hclean. Qed.

Lemma generateVoiceover_empty_script_witness :
  cleanScriptForTTS (lit "  [music] (pause) ** ") = []
  /\ generateVoiceover failing_world (lit "  [music] (pause) ** ") KORE
     = ([], Throw (Error (Some
          (lit "Script is empty (or contained only unreadable content).")))).
Proof.
  split; [reflexivity |].
  apply (generateVoiceover_empty_script failing_world
           (lit "  [music] (pause) ** ") KORE).
  reflexivity.
Defined.

(** C4. When each of the three TTS attempts fails, [generateVoiceover] sends
    exactly three requests, waits 2000, 4000 and 6000 ms after the first,
    second and third of them, and then throws an error whose message holds
    [3 attempts] followed by the message of the last failure. *)
Theorem generateVoiceover_exhaustion
        (w : World) (text : jsstring) (voice : VoiceOption) (e0 e1 e2 : error) :
  cleanScriptForTTS text <> [] ->
  result (tts_attempt w (cleanScriptForTTS text) voice 0) = Throw e0 ->
  result (tts_attempt w (cleanScriptForTTS text) voice 1) = Throw e1 ->
  result (tts_attempt w (cleanScriptForTTS text) voice 2) = Throw e2 ->
  generateVoiceover w text voice
  = ([ TtsRequest (cleanScriptForTTS text) voice; Sleep 2000;
       TtsRequest (cleanScriptForTTS text) voice; Sleep 4000;
       TtsRequest (cleanScriptForTTS text) voice; Sleep 6000 ],
     Throw (Error (Some (lit "Failed to generate audio after 3 attempts. "
                         ++ string_or (message e2) []))))
  /\ length (filter is_tts_request (trace (generateVoiceover w text voice))) = 3%nat
  /\ sleeps (trace (generateVoiceover w text voice)) = [2000; 4000; 6000]%Z
  /\ includes (lit "Failed to generate audio after 3 attempts. "
               ++ string_or (message e2) []) (lit "3 attempts") = true.
Proof.
  intros Hne H0 H1 H2.
  assert (Hrun : generateVoiceover w text voice
    = ([ TtsRequest (cleanScriptForTTS text) voice; Sleep 2000;
         TtsRequest (cleanScriptForTTS text) voice; Sleep 4000;
         TtsRequest (cleanScriptForTTS text) voice; Sleep 6000 ],
       Throw (Error (Some (lit "Failed to generate audio after 3 attempts. "
                           ++ string_or (message e2) []))))).
  { unfold generateVoiceover.
    destruct (cleanScriptForTTS text) as [| c ct] eqn:Hct; [congruence |].
    cbn [truthy_string negb].
    change (counting 0 3) with [0; 1; 2]%Z.
    rewrite (tts_loop_failed_attempt w _ voice 0 _ None e0 H0).
    rewrite (tts_loop_failed_attempt w _ voice 1 _ (Some e0) e1 H1).
    rewrite (tts_loop_failed_attempt w _ voice 2 _ (Some e1) e2 H2).
    reflexivity. }
  rewrite Hrun. repeat split; reflexivity.
Qed.

Lemma generateVoiceover_exhaustion_witness :
  generateVoiceover failing_world (lit "Ship it *today*") ZEPHYR
  = ([ TtsRequest (lit "Ship it today") ZEPHYR; Sleep 2000;
       TtsRequest (lit "Ship it today") ZEPHYR; Sleep 4000;
       TtsRequest (lit "Ship it today") ZEPHYR; Sleep 6000 ],
     Throw (Error (Some
       (lit "Failed to generate audio after 3 attempts. Service unavailable")))).
Proof.
  apply (generateVoiceover_exhaustion failing_world (lit "Ship it *today*") ZEPHYR
           unavailable unavailable unavailable);
    [ discriminate | reflexivity | reflexivity | reflexivity ].
Defined.

(** ** Primary image provider *)

Lemma attempts_app (t1 t2 : list event) :
  attempts (t1 ++ t2) = (attempts t1 + attempts t2)%nat.
Proof. unfold attempts. now rewrite filter_app, length_app. Qed.

(** The requests of one attempt: the connection, then the prediction when
    the connection is made, then the download when a URL came back. *)
Lemma flux_attempt_trace (w : World) (p : jsstring) (wd ht a : Z) :
  trace (flux_attempt w p wd ht a) =
  Connect ::
    match connect_error w a with
    | Some _ => []
    | None =>
        Predict (enhanced p) wd ht ::
          match predict_reply w a with
          | Answers info =>
              if truthy (image_url info)
              then [Fetch (string_or (image_url info) [])] else []
          | Fails _ => []
          end
    end.
Proof.
  unfold flux_attempt, request, bind.
  destruct (connect_error w a); [reflexivity |].
  destruct (predict_reply w a) as [info | e]; [| reflexivity].
  destruct (truthy (image_url info)); [| reflexivity].
  destruct (download_reply w _); reflexivity.
Qed.

Lemma flux_attempt_counts_once (w : World) (p : jsstring) (wd ht a : Z) :
  attempts (trace (flux_attempt w p wd ht a)) = 1%nat.
Proof.
  rewrite flux_attempt_trace.
  destruct (connect_error w a); [reflexivity |].
  destruct (predict_reply w a) as [info | e]; [| reflexivity].
  destruct (truthy (image_url info)); reflexivity.
Qed.

Lemma flux_attempt_no_url
      (w : World) (p : jsstring) (wd ht a : Z)
      (info : option (jsstring + option jsstring)) :
  connect_error w a = None ->
  predict_reply w a = Answers info ->
  truthy (image_url info) = false ->
  flux_attempt w p wd ht a = ([Connect; Predict (enhanced p) wd ht], Return None).
Proof.
  intros Hc Hp Hu. unfold flux_attempt, request, bind.
  rewrite Hc, Hp. cbn. now rewrite Hu.
Qed.

(** A response without URL leaves the loop at once. *)
Lemma flux_loop_no_url
      (w : World) (p : jsstring) (wd ht a : Z) (rest : list Z)
      (info : option (jsstring + option jsstring)) :
  connect_error w a = None ->
  predict_reply w a = Answers info ->
  truthy (image_url info) = false ->
  flux_loop w p wd ht (a :: rest) = ([Connect; Predict (enhanced p) wd ht], Return None).
Proof.
  intros Hc Hp Hu. cbn [flux_loop].
  now rewrite (flux_attempt_no_url w p wd ht a info Hc Hp Hu).
Qed.

(** An exception is caught, the loop waits unless the attempt was the last
    one, and goes on with the next attempt. *)
Lemma flux_loop_thrown
      (w : World) (p : jsstring) (wd ht a : Z) (rest : list Z) (e : error) :
  result (flux_attempt w p wd ht a) = Throw e ->
  flux_loop w p wd ht (a :: rest) =
  (trace (flux_attempt w p wd ht a)
     ++ (if (a =? MAX_RETRIES)%Z then [] else [Sleep (flux_delay a)])
     ++ trace (flux_loop w p wd ht rest),
   result (flux_loop w p wd ht rest)).
Proof.
  intros Hfail. cbn [flux_loop].
  destruct (flux_attempt w p wd ht a) as [ta ra]. simpl in Hfail. subst ra.
  destruct (flux_loop w p wd ht rest) as [t r].
  destruct (a =? MAX_RETRIES)%Z; simpl.
  - now rewrite app_nil_r.
  - now rewrite <- app_assoc.
Qed.

Lemma flux_loop_step (w : World) (p : jsstring) (wd ht a : Z) (rest : list Z) :
  (exists x, flux_loop w p wd ht (a :: rest)
             = (trace (flux_attempt w p wd ht a), Return x))
  \/ (exists e, result (flux_attempt w p wd ht a) = Throw e).
Proof.
  cbn [flux_loop].
  destruct (flux_attempt w p wd ht a) as [t [x | e]].
  - left. exists x. simpl. now rewrite !app_nil_r.
  - right. now exists e.
Qed.

Lemma flux_loop_returns (w : World) (p : jsstring) (wd ht : Z) (l : list Z) :
  exists r, result (flux_loop w p wd ht l) = Return r.
Proof.
  induction l as [| a rest IH]; [now exists None |].
  destruct (flux_loop_step w p wd ht a rest) as [[x Hx] | [e He]].
  - exists x. now rewrite Hx.
  - rewrite (flux_loop_thrown w p wd ht a rest e He). exact IH.
Qed.

Lemma flux_loop_attempts_le (w : World) (p : jsstring) (wd ht : Z) (l : list Z) :
  (attempts (trace (flux_loop w p wd ht l)) <= length l)%nat.
Proof.
  induction l as [| a rest IH]; [apply Nat.le_refl |].
  destruct (flux_loop_step w p wd ht a rest) as [[x Hx] | [e He]].
  - rewrite Hx. cbn [trace fst]. rewrite flux_attempt_counts_once. simpl. lia.
  - rewrite (flux_loop_thrown w p wd ht a rest e He). cbn [trace fst].
    rewrite !attempts_app, flux_attempt_counts_once.
    destruct (a =? MAX_RETRIES)%Z; simpl; lia.
Qed.

Lemma generateWithFlux_unfold (w : World) (p : jsstring) (wd ht : Z) :
  generateWithFlux w p wd ht = flux_loop w p wd ht [1; 2; 3]%Z.
Proof. reflexivity. Qed.

(** The fallback provider is asked once, with the aspect ratio of the
    platform, and never throws. *)
Lemma generateWithGemini_run (w : World) (p : jsstring) (platform : Platform) :
  exists r, generateWithGemini w p platform
            = ([ImageRequest p (spec_aspect platform)], Return r).
Proof.
  unfold generateWithGemini, request, bind, try_catch.
  destruct (image_reply w) as [parts | e]; destruct platform; simpl;
    eexists; reflexivity.
Qed.

Lemma sleeps_app (t1 t2 : list event) : sleeps (t1 ++ t2) = sleeps t1 ++ sleeps t2.
Proof. unfold sleeps. apply flat_map_app. Qed.

Lemma flux_attempt_no_sleep (w : World) (p : jsstring) (wd ht a : Z) :
  sleeps (trace (flux_attempt w p wd ht a)) = [].
Proof.
  rewrite flux_attempt_trace.
  destruct (connect_error w a); [reflexivity |].
  destruct (predict_reply w a) as [info | e]; [| reflexivity].
  destruct (truthy (image_url info)); reflexivity.
Qed.

(** After attempts that all throw, a response without URL ends the loop:
    the attempts that remain are not made. *)
Lemma flux_loop_throws_then_no_url
      (w : World) (p : jsstring) (wd ht : Z) (before : list Z) (a : Z) (rest : list Z)
      (info : option (jsstring + option jsstring)) :
  (forall j, In j before -> exists e, result (flux_attempt w p wd ht j) = Throw e) ->
  connect_error w a = None ->
  predict_reply w a = Answers info ->
  truthy (image_url info) = false ->
  result (flux_loop w p wd ht (before ++ a :: rest)) = Return None
  /\ attempts (trace (flux_loop w p wd ht (before ++ a :: rest))) = S (length before).
Proof.
  intros Hthrow Hc Hp Hu. induction before as [| b before IH]; cbn [app length].
  - now rewrite (flux_loop_no_url w p wd ht a rest info Hc Hp Hu).
  - destruct (Hthrow b (or_introl eq_refl)) as [e He].
    rewrite (flux_loop_thrown w p wd ht b _ e He). cbn [trace fst result snd].
    destruct IH as [IHr IHa]; [intros j Hj; apply Hthrow; now right |].
    split; [exact IHr |].
    rewrite !attempts_app, flux_attempt_counts_once, IHa.
    destruct (b =? MAX_RETRIES)%Z; reflexivity.
Qed.

(** When every attempt throws, all of them are made, with a wait after each
    but the one numbered [MAX_RETRIES]. *)
Lemma flux_loop_all_throw
      (w : World) (p : jsstring) (wd ht : Z) (l : list Z) :
  (forall j, In j l -> exists e, result (flux_attempt w p wd ht j) = Throw e) ->
  result (flux_loop w p wd ht l) = Return None
  /\ attempts (trace (flux_loop w p wd ht l)) = length l
  /\ sleeps (trace (flux_loop w p wd ht l))
     = flat_map (fun a => if (a =? MAX_RETRIES)%Z then [] else [flux_delay a]) l.
Proof.
  intros Hthrow. induction l as [| a l IH]; [now repeat split |].
  destruct (Hthrow a (or_introl eq_refl)) as [e He].
  rewrite (flux_loop_thrown w p wd ht a _ e He). cbn [trace fst result snd].
  destruct IH as (IHr & IHa & IHs); [intros j Hj; apply Hthrow; now right |].
  split; [exact IHr |]. split.
  - rewrite !attempts_app, flux_attempt_counts_once, IHa. cbn [length].
    destruct (a =? MAX_RETRIES)%Z; reflexivity.
  - rewrite !sleeps_app, flux_attempt_no_sleep, IHs. cbn [flat_map app].
    destruct (a =? MAX_RETRIES)%Z; reflexivity.
Qed.

(** C1, as the code has it.  [generateWithFlux] makes at most three attempts.
    Only an exception leads to the next attempt: when the attempts before
    the [k]-th throw and the [k]-th response holds no image URL, the function
    returns [null] after exactly [k] attempts.  When all three attempts
    throw, three are made, with waits of 3000 and 4500 ms between them.  For
    an IMAGE item whose first response holds no URL, [generateAsset] turns to
    the fallback provider right after that single attempt. *)
Theorem generateWithFlux_attempts (w : World) (p : jsstring) (wd ht : Z) :
  (attempts (trace (generateWithFlux w p wd ht)) <= 3)%nat
  /\ (forall (k : Z) (info : option (jsstring + option jsstring)),
         (1 <= k <= 3)%Z ->
         (forall j, (1 <= j < k)%Z ->
                    exists e, result (flux_attempt w p wd ht j) = Throw e) ->
         connect_error w k = None ->
         predict_reply w k = Answers info ->
         truthy (image_url info) = false ->
         result (generateWithFlux w p wd ht) = Return None
         /\ attempts (trace (generateWithFlux w p wd ht)) = Z.to_nat k)
  /\ ((forall j, (1 <= j <= 3)%Z ->
                 exists e, result (flux_attempt w p wd ht j) = Throw e) ->
      result (generateWithFlux w p wd ht) = Return None
      /\ attempts (trace (generateWithFlux w p wd ht)) = 3%nat
      /\ sleeps (trace (generateWithFlux w p wd ht)) = [3000; 4500]%Z)
  /\ (forall (d : jsstring) (st en : option float) (platform : Platform)
             (info : option (jsstring + option jsstring)),
         connect_error w 1 = None ->
         predict_reply w 1 = Answers info ->
         truthy (image_url info) = false ->
         trace (generateAsset w {| type := IMAGE; description := d;
                                   imagePrompt := Some p;
                                   videoStartTime := st; videoEndTime := en |}
                              platform)
         = [ Connect;
             Predict (enhanced (string_or (Some p) d))
                     (fst (spec_dimensions platform)) (snd (spec_dimensions platform));
             ImageRequest (string_or (Some p) d) (spec_aspect platform) ]).
Proof.
  rewrite generateWithFlux_unfold. split; [| split; [| split]].
  - apply (flux_loop_attempts_le w p wd ht [1; 2; 3]%Z).
  - intros k info Hk Hbefore Hc Hp Hu.
    assert (Hsplit : exists before rest,
               [1; 2; 3]%Z = before ++ k :: rest
               /\ length before = pred (Z.to_nat k)
               /\ forall j, In j before -> (1 <= j < k)%Z).
    { assert (Hcase : k = 1%Z \/ k = 2%Z \/ k = 3%Z) by lia.
      destruct Hcase as [-> | [-> | ->]].
      - exists [], [2; 3]%Z.
        split; [reflexivity | split; [reflexivity |]]. intros j Hj. cbn in Hj. lia.
      - exists [1]%Z, [3]%Z.
        split; [reflexivity | split; [reflexivity |]]. intros j Hj. cbn in Hj. lia.
      - exists [1; 2]%Z, [].
        split; [reflexivity | split; [reflexivity |]]. intros j Hj. cbn in Hj. lia. }
    destruct Hsplit as (before & rest & -> & Hlen & Hin).
    destruct (flux_loop_throws_then_no_url w p wd ht before k rest info) as [Hr Ha];
      try assumption.
    + intros j Hj. apply Hbefore, Hin, Hj.
    + split; [exact Hr |]. rewrite Ha, Hlen. lia.
  - intros Hall.
    destruct (flux_loop_all_throw w p wd ht [1; 2; 3]%Z) as (Hr & Ha & Hs).
    + intros j Hj. apply Hall. cbn in Hj. lia.
    + repeat split; assumption.
  - intros d st en platform info Hc Hp Hu.
    unfold generateAsset. cbn [type imagePrompt description].
    rewrite generateWithFlux_unfold.
    rewrite (flux_loop_no_url w _ _ _ 1 [2; 3]%Z info Hc Hp Hu).
    destruct (generateWithGemini_run w (string_or (Some p) d) platform) as [r Hr].
    unfold bind. cbn [truthy]. rewrite Hr.
    destruct platform; destruct (truthy r); reflexivity.
Qed.

Lemma generateWithFlux_attempts_witness :
  result (generateWithFlux no_url_world (lit "Neon dashboard") 768 1024) = Return None
  /\ attempts (trace (generateWithFlux no_url_world (lit "Neon dashboard") 768 1024)) = 1%nat.
Proof.
  apply (proj1 (proj2 (generateWithFlux_attempts no_url_world (lit "Neon dashboard") 768 1024))
           1%Z None).
  - lia.
  - intros j Hj. lia.
  - reflexivity.
  - reflexivity.
  - reflexivity.
Defined.

(** C1, as stated, fails: a first response without image URL is not
    followed by a second attempt. *)
Lemma generateWithFlux_no_url_not_retried :
  ~ (forall (w : World) (p : jsstring) (wd ht : Z)
            (info : option (jsstring + option jsstring)),
        connect_error w 1 = None ->
        predict_reply w 1 = Answers info ->
        truthy (image_url info) = false ->
        (2 <= attempts (trace (generateWithFlux w p wd ht)))%nat).
Proof.
  intros Hclaim.
  specialize (Hclaim no_url_world (lit "Neon dashboard") 768%Z 1024%Z None
                     eq_refl eq_refl eq_refl).
  vm_compute in Hclaim. lia.
Qed.

(** The same first attempt, once answered without URL and once with an
    exception: one attempt and no image against two attempts and an image. *)
Example no_url_against_exception :
  generateWithFlux no_url_world (lit "Neon dashboard") 768 1024
  = ([Connect; Predict (enhanced (lit "Neon dashboard")) 768 1024], Return None)
  /\ generateWithFlux throwing_world (lit "Neon dashboard") 768 1024
     = ([ Connect; Predict (enhanced (lit "Neon dashboard")) 768 1024; Sleep 3000;
          Connect; Predict (enhanced (lit "Neon dashboard")) 768 1024;
          Fetch (lit "https://space.example/image.png") ],
        Return (Some (lit "aGVsbG8="))).
Proof. split; reflexivity. Qed.

(** ** Asset generator: image items *)

Lemma flux_attempt_requests
      (w : World) (platform : Platform) (p : jsstring) (wd ht a : Z) :
  (wd, ht) = spec_dimensions platform ->
  Forall (request_matches platform) (trace (flux_attempt w p wd ht a)).
Proof.
  intros Hdim. rewrite flux_attempt_trace.
  destruct (connect_error w a); [repeat constructor |].
  destruct (predict_reply w a) as [info | e]; [| repeat constructor; exact Hdim].
  destruct (truthy (image_url info)); repeat constructor; exact Hdim.
Qed.

Lemma flux_loop_requests
      (w : World) (platform : Platform) (p : jsstring) (wd ht : Z) (l : list Z) :
  (wd, ht) = spec_dimensions platform ->
  Forall (request_matches platform) (trace (flux_loop w p wd ht l)).
Proof.
  intros Hdim. induction l as [| a rest IH]; [constructor |].
  destruct (flux_loop_step w p wd ht a rest) as [[x Hx] | [e He]].
  - rewrite Hx. now apply flux_attempt_requests.
  - rewrite (flux_loop_thrown w p wd ht a rest e He). cbn [trace fst].
    apply Forall_app. split; [now apply flux_attempt_requests |].
    apply Forall_app. split; [| exact IH].
    destruct (a =? MAX_RETRIES)%Z; repeat constructor.
Qed.

Lemma flux_loop_starts_connecting
      (w : World) (p : jsstring) (wd ht a : Z) (rest : list Z) :
  exists tl,
    trace (flux_loop w p wd ht (a :: rest)) = Connect :: tl
    /\ match connect_error w a with
       | None => hd_error tl = Some (Predict (enhanced p) wd ht)
       | Some _ => True
       end.
Proof.
  destruct (flux_loop_step w p wd ht a rest) as [[x Hx] | [e He]].
  - rewrite Hx. cbn [trace fst]. rewrite flux_attempt_trace.
    eexists. split; [reflexivity |].
    now destruct (connect_error w a).
  - rewrite (flux_loop_thrown w p wd ht a rest e He). cbn [trace fst].
    rewrite flux_attempt_trace. eexists. split; [reflexivity |].
    now destruct (connect_error w a).
Qed.

(** C8. For an IMAGE item every request of [generateAsset] to the primary
    provider asks for 768x1024 on TikTok and Instagram and for 1024x768 on
    YouTube and Generic, and every request to the fallback provider carries
    the aspect ratio 9:16, respectively 16:9.  The first event is the
    connection of the first attempt; when it is made, the prediction with
    these dimensions follows.  The fallback provider, when called, sends
    exactly one request, with that aspect ratio. *)
Theorem generateAsset_image_requests
        (w : World) (d : jsstring) (ip : option jsstring)
        (st en : option float) (platform : Platform) :
  let item := {| type := IMAGE; description := d; imagePrompt := ip;
                 videoStartTime := st; videoEndTime := en |} in
  let t := trace (generateAsset w item platform) in
  Forall (request_matches platform) t
  /\ hd_error t = Some Connect
  /\ match connect_error w 1 with
     | None => nth_error t 1
               = Some (Predict (enhanced (string_or ip d))
                               (fst (spec_dimensions platform))
                               (snd (spec_dimensions platform)))
     | Some _ => True
     end
  /\ trace (generateWithGemini w (string_or ip d) platform)
     = [ImageRequest (string_or ip d) (spec_aspect platform)]
  /\ spec_dimensions TIKTOK = (768, 1024)%Z
  /\ spec_dimensions INSTAGRAM = (768, 1024)%Z
  /\ spec_dimensions YOUTUBE = (1024, 768)%Z
  /\ spec_dimensions GENERIC = (1024, 768)%Z.
Proof.
  intros item t. subst t item. unfold generateAsset.
  cbn [type imagePrompt description].
  set (p := string_or ip d).
  set (isPortrait := Platform_eqb platform TIKTOK || Platform_eqb platform INSTAGRAM).
  assert (Hdim : ((if isPortrait then 768 else 1024)%Z,
                  (if isPortrait then 1024 else 768)%Z) = spec_dimensions platform)
    by (subst isPortrait; destruct platform; reflexivity).
  set (wd := (if isPortrait then 768 else 1024)%Z) in *.
  set (ht := (if isPortrait then 1024 else 768)%Z) in *.
  rewrite generateWithFlux_unfold.
  destruct (generateWithGemini_run w p platform) as [g Hg].
  pose proof (flux_loop_requests w platform p wd ht [1; 2; 3]%Z Hdim) as Hall.
  destruct (flux_loop_starts_connecting w p wd ht 1 [2; 3]%Z) as [tl [Htl Hpred]].
  destruct (flux_loop_returns w p wd ht [1; 2; 3]%Z) as [r Hr].
  rewrite trace_bind, Hr, Htl. rewrite Htl in Hall.
  assert (Hwd : wd = fst (spec_dimensions platform)) by now rewrite <- Hdim.
  assert (Hht : ht = snd (spec_dimensions platform)) by now rewrite <- Hdim.
  repeat split.
  - apply Forall_app. split; [exact Hall |].
    destruct (truthy r); [constructor |].
    rewrite trace_bind, Hg. cbn [trace fst result snd].
    destruct (truthy g); repeat constructor.
  - destruct (connect_error w 1); [exact I |].
    destruct tl as [| ev tl']; [discriminate |].
    cbn in Hpred |- *. now rewrite <- Hwd, <- Hht.
  - now rewrite Hg.
Qed.

(** ** Visual planner *)

Ltac plan_cases w videoFrames :=
  unfold generateVisualPlan;
  destruct videoFrames as [frames |];
  [ destruct (0 <? length frames)%nat |];
  unfold request, bind, try_catch;
  destruct (plan_reply w) as [response | err]; cbv beta iota;
  try destruct (JSON_parse w _) as [plan | parseError].

(** C2, as the code has it.  [generateVisualPlan] always returns a plan and
    never throws.  When the request to the model throws, or the cleaned
    response text is rejected by [JSON.parse], the plan returned is the fixed
    fallback plan: four items, each of type IMAGE, described as Intro,
    Feature Highlight, User Benefit and Call to Action.  A cleaned response
    text that [JSON.parse] accepts is returned as parsed. *)
Theorem generateVisualPlan_fallback
        (w : World) (script : jsstring) (files : list ProjectFile)
        (videoFrames : option (list VideoFrame)) :
  (exists plan, result (generateVisualPlan w script files videoFrames) = Return plan)
  /\ (forall e, plan_reply w = Fails e ->
        result (generateVisualPlan w script files videoFrames) = Return fallback_plan)
  /\ (forall response e,
        plan_reply w = Answers response ->
        JSON_parse w (cleanJson (string_or response (lit "[]"))) = Fails e ->
        result (generateVisualPlan w script files videoFrames) = Return fallback_plan)
  /\ (forall response plan,
        plan_reply w = Answers response ->
        JSON_parse w (cleanJson (string_or response (lit "[]"))) = Answers plan ->
        result (generateVisualPlan w script files videoFrames) = Return plan)
  /\ (exists items,
        fallback_plan = JArray items
        /\ length items = 4%nat
        /\ Forall (fun it => get (lit "type") it = Some (JString (lit "IMAGE"))) items
        /\ List.map (get (lit "description")) items
           = [ Some (JString (lit "Intro"));
               Some (JString (lit "Feature Highlight"));
               Some (JString (lit "User Benefit"));
               Some (JString (lit "Call to Action")) ]).
Proof.
  split; [| split; [| split; [| split]]].
  - plan_cases w videoFrames; eexists; reflexivity.
  - intros e He. unfold generateVisualPlan.
    destruct videoFrames as [frames |]; [destruct (0 <? length frames)%nat |];
      unfold request, bind, try_catch; rewrite He; reflexivity.
  - intros response e Hresp Hparse. unfold generateVisualPlan.
    destruct videoFrames as [frames |]; [destruct (0 <? length frames)%nat |];
      unfold request, bind, try_catch; rewrite Hresp; cbv beta iota;
      rewrite Hparse; reflexivity.
  - intros response plan Hresp Hparse. unfold generateVisualPlan.
    destruct videoFrames as [frames |]; [destruct (0 <? length frames)%nat |];
      unfold request, bind, try_catch; rewrite Hresp; cbv beta iota;
      rewrite Hparse; reflexivity.
  - eexists. split; [reflexivity |].
    split; [reflexivity |].
    split; [| reflexivity].
    repeat constructor.
Qed.

Lemma generateVisualPlan_fallback_witness :
  result (generateVisualPlan failing_world (lit "Ship it today") [] None)
  = Return fallback_plan
  /\ plan_reply chatty_world = Answers (Some (lit "Sorry, I cannot help with that."))
  /\ JSON_parse chatty_world
       (cleanJson (string_or (Some (lit "Sorry, I cannot help with that.")) (lit "[]")))
     = Fails (Error (Some (lit "Unexpected token in JSON")))
  /\ result (generateVisualPlan chatty_world (lit "Ship it today") [] None)
     = Return fallback_plan
  /\ result (generateVisualPlan silent_world (lit "Ship it today") [] None)
     = Return (JArray []).
Proof.
  split; [| split; [| split; [| split]]].
  - apply (proj1 (proj2 (generateVisualPlan_fallback
                           failing_world (lit "Ship it today") [] None))
             unavailable).
    reflexivity.
  - reflexivity.
  - reflexivity.
  - apply (proj1 (proj2 (proj2 (generateVisualPlan_fallback
                                  chatty_world (lit "Ship it today") [] None)))
             (Some (lit "Sorry, I cannot help with that."))
             (Error (Some (lit "Unexpected token in JSON")))).
    + reflexivity.
    + reflexivity.
  - apply (proj1 (proj2 (proj2 (proj2 (generateVisualPlan_fallback
                                         silent_world (lit "Ship it today") [] None))))
             None (JArray [])).
    + reflexivity.
    + reflexivity.
Defined.

(** C2, as stated, fails in its last part: the plan received is not always
    non-empty.  A response without text is read as [[]], which parses, and
    the empty plan is returned instead of the fallback plan. *)
Lemma generateVisualPlan_empty_plan :
  ~ (forall (w : World) (script : jsstring) (files : list ProjectFile)
            (videoFrames : option (list VideoFrame)),
        exists item items,
          result (generateVisualPlan w script files videoFrames)
          = Return (JArray (item :: items))).
Proof.
  intros Hclaim.
  destruct (Hclaim silent_world (lit "Ship it today") [] None) as (item & items & H).
  vm_compute in H. discriminate.
Qed.

(** ** Frame sampling *)

Section Stride.

Variables n s : nat.
Hypothesis s_pos : (1 <= s)%nat.

(** The multiples of the stride below [n] are the first [ceil_div n s]. *)
Lemma below_ceil_div (j : nat) : (j < ceil_div n s)%nat <-> (j * s < n)%nat.
Proof.
  unfold ceil_div. split; intros H.
  - assert (Hle : (S j <= (n + s - 1) / s)%nat) by lia.
    assert (Hmul : (s * S j <= n + s - 1)%nat).
    { etransitivity; [apply Nat.mul_le_mono_l, Hle |].
      apply Nat.Div0.mul_div_le. }
    nia.
  - apply Nat.div_le_lower_bound with (q := S j); [lia | nia].
Qed.

Lemma ceil_div_le (c : nat) : (n <= c * s)%nat -> (ceil_div n s <= c)%nat.
Proof.
  intros H. destruct (Nat.le_gt_cases (ceil_div n s) c) as [Hle | Hgt]; [exact Hle |].
  apply below_ceil_div in Hgt. lia.
Qed.

Lemma stride_indices_below : Forall (fun i => i < n)%nat (stride_indices n s).
Proof.
  unfold stride_indices. apply Forall_forall. intros i Hi.
  apply in_map_iff in Hi. destruct Hi as [k [<- Hk]].
  apply in_seq in Hk. apply below_ceil_div. lia.
Qed.

End Stride.

Lemma ceil_div_five (n : nat) :
  (1 <= n)%nat ->
  (1 <= ceil_div n MAX_CONTEXT_FRAMES)%nat
  /\ (n <= MAX_CONTEXT_FRAMES * ceil_div n MAX_CONTEXT_FRAMES)%nat.
Proof.
  intros Hn. unfold ceil_div, MAX_CONTEXT_FRAMES.
  pose proof (Nat.div_mod_eq (n + 5 - 1) 5) as Hdiv.
  pose proof (Nat.mod_upper_bound (n + 5 - 1) 5) as Hmod.
  lia.
Qed.

(** The loop, entered for the [j]-th time with the parts of the first [j]
    selected frames, ends by its own test and has then pushed the parts of
    the remaining multiples of the stride. *)
Lemma frame_loop_from
      (w : World) (videoFrames : list VideoFrame) (s : nat) :
  (1 <= s)%nat ->
  (length videoFrames <= MAX_CONTEXT_FRAMES * s)%nat ->
  forall (fuel j : nat) (acc : list part),
    (j <= ceil_div (length videoFrames) s)%nat ->
    length acc = (2 * j)%nat ->
    (ceil_div (length videoFrames) s - j < fuel)%nat ->
    frame_loop w fuel videoFrames s (j * s) acc
    = Some (acc ++ parts_at w videoFrames
                     (List.map (fun k => k * s)%nat
                               (seq j (ceil_div (length videoFrames) s - j)))).
Proof.
  intros Hs Hcap.
  assert (Hk5 : (ceil_div (length videoFrames) s <= MAX_CONTEXT_FRAMES)%nat)
    by (apply ceil_div_le; assumption).
  induction fuel as [| fuel IH]; intros j acc Hj Hacc Hfuel; [lia |].
  cbn [frame_loop].
  destruct (j * s <? length videoFrames)%nat eqn:Hlt.
  - apply Nat.ltb_lt in Hlt.
    assert (Hjk : (j < ceil_div (length videoFrames) s)%nat)
      by (apply below_ceil_div; assumption).
    rewrite Hacc, Nat.mul_comm, Nat.div_mul by lia.
    destruct (MAX_CONTEXT_FRAMES <=? j)%nat eqn:Hmax;
      [apply Nat.leb_le in Hmax; lia |].
    destruct (nth_error videoFrames (j * s)) as [f |] eqn:Hnth;
      [| apply nth_error_None in Hnth; lia].
    replace (j * s + s)%nat with (S j * s)%nat by lia.
    rewrite IH; [| lia | rewrite length_app, Hacc; cbn; lia | lia].
    replace (ceil_div (length videoFrames) s - j)%nat
      with (S (ceil_div (length videoFrames) s - S j)) by lia.
    cbn [seq List.map parts_at flat_map]. rewrite Hnth.
    now rewrite <- app_assoc.
  - apply Nat.ltb_ge in Hlt.
    assert (Hjk : ~ (j < ceil_div (length videoFrames) s)%nat)
      by (rewrite below_ceil_div by assumption; lia).
    replace (ceil_div (length videoFrames) s - j)%nat with 0%nat by lia.
    cbn. now rewrite app_nil_r.
Qed.

(** C6. With [n >= 1] frames, the planner picks the frames at the indices
    [0, s, 2s, ...] below [n] for the stride [s = ceil(n / 5)], never more
    than five of them, and sends their parts ahead of the text prompt; with
    23 frames the indices are 0, 5, 10, 15, 20. *)
Theorem sample_frames_stride
        (w : World) (script : jsstring) (files : list ProjectFile)
        (videoFrames : list VideoFrame) :
  (1 <= length videoFrames)%nat ->
  let n := length videoFrames in
  let s := ceil_div n 5 in
  sample_frames w videoFrames = Some (parts_at w videoFrames (stride_indices n s))
  /\ trace (generateVisualPlan w script files (Some videoFrames))
     = [PlanRequest (parts_at w videoFrames (stride_indices n s)
                     ++ [Text (plan_prompt script (file_context files) frame_context)])]
  /\ (length (stride_indices n s) <= 5)%nat
  /\ Forall (fun i => i < n)%nat (stride_indices n s)
  /\ stride_indices 23 (ceil_div 23 5) = [0; 5; 10; 15; 20]%nat.
Proof.
  intros Hn n s.
  destruct (ceil_div_five n Hn) as [Hs Hcap].
  change (ceil_div n MAX_CONTEXT_FRAMES) with s in Hs, Hcap.
  assert (Hk : (ceil_div n s <= 5)%nat) by (apply ceil_div_le; assumption).
  assert (Hkn : (ceil_div n s <= n)%nat) by (apply ceil_div_le; [assumption | nia]).
  assert (Hrun : sample_frames w videoFrames
                 = Some (parts_at w videoFrames (stride_indices n s))).
  { unfold sample_frames. fold n. change (ceil_div n MAX_CONTEXT_FRAMES) with s.
    change 0%nat with (0 * s)%nat at 1.
    rewrite (frame_loop_from w videoFrames s Hs Hcap (S n) 0 []);
      [| lia | reflexivity | fold n; lia].
    fold n. rewrite Nat.sub_0_r. reflexivity. }
  repeat split.
  - exact Hrun.
  - unfold generateVisualPlan. rewrite Hrun.
    destruct (0 <? length videoFrames)%nat eqn:Hpos;
      [| apply Nat.ltb_ge in Hpos; lia].
    unfold request, bind, try_catch.
    destruct (plan_reply w) as [response | err]; cbv beta iota;
      [destruct (JSON_parse w _) |]; reflexivity.
  - unfold stride_indices. now rewrite length_map, length_seq.
  - apply stride_indices_below. exact Hs.
Qed.

Lemma sample_frames_stride_witness :
  sample_frames failing_world (repeat {| timestamp := 0; frame_base64 := lit "/9j/" |} 23)
  = Some (parts_at failing_world
            (repeat {| timestamp := 0; frame_base64 := lit "/9j/" |} 23)
            [0; 5; 10; 15; 20]%nat).
Proof.
  apply (sample_frames_stride failing_world (lit "Ship it today") []
           (repeat {| timestamp := 0; frame_base64 := lit "/9j/" |} 23)).
  simpl. lia.
Defined.

(** ** JSON cleaner *)

Lemma scan_skip (m : matcher) (s : jsstring) :
  forall k, scan m k s = scan m 0 (skipn k s).
Proof.
  induction s as [| x s IH]; intros [| k]; try reflexivity.
  cbn [scan skipn]. apply IH.
Qed.

Lemma scan_cons (m : matcher) (x : N) (s : jsstring) :
  scan m 0 (x :: s) =
  match m (x :: s) with
  | Some (rep, len) => rep ++ scan m 0 (skipn (pred len) s)
  | None => x :: scan m 0 s
  end.
Proof.
  cbn [scan]. destruct (m (x :: s)) as [[rep len] |]; [| reflexivity].
  now rewrite scan_skip.
Qed.

(** A replacement by the empty string adds no character. *)
Lemma scan_removes_only (m : matcher) :
  (forall t rep len, m t = Some (rep, len) -> rep = []) ->
  forall (x : N) (s : jsstring) (k : nat), In x (scan m k s) -> In x s.
Proof.
  intros Hrep x s. induction s as [| c s IH]; intros k Hin; [exact Hin |].
  destruct k as [| k]; cbn [scan] in Hin.
  - destruct (m (c :: s)) as [[rep len] |] eqn:Hm.
    + rewrite (Hrep _ _ _ Hm) in Hin. right. exact (IH _ Hin).
    + destruct Hin as [-> | Hin]; [now left | right; exact (IH _ Hin)].
  - right. exact (IH _ Hin).
Qed.

Section Boundary.

(** A character [c] at which no match of [m] starts and across which no
    match extends. *)
Variable m : matcher.
Variable c : N.
Hypothesis no_match_at : forall b, m (c :: b) = None.
Hypothesis no_match_across : forall a b, m (a ++ c :: b) = m a.
Hypothesis match_within :
  forall a rep len, m a = Some (rep, len) -> (1 <= len <= length a)%nat.

Lemma scan_boundary_bounded (n : nat) :
  forall a b, (length a <= n)%nat ->
              scan m 0 (a ++ c :: b) = scan m 0 a ++ c :: scan m 0 b.
Proof.
  induction n as [| n IH]; intros a b Hlen.
  - destruct a; [| simpl in Hlen; lia].
    cbn [app]. rewrite scan_cons, no_match_at. reflexivity.
  - destruct a as [| x a].
    + cbn [app]. rewrite scan_cons, no_match_at. reflexivity.
    + cbn [app]. rewrite !scan_cons.
      change (x :: a ++ c :: b) with ((x :: a) ++ c :: b).
      rewrite no_match_across.
      destruct (m (x :: a)) as [[rep len] |] eqn:Hm.
      * apply match_within in Hm. simpl in Hm, Hlen.
        rewrite skipn_app.
        replace (pred len - length a)%nat with 0%nat by lia.
        cbn [skipn]. rewrite IH.
        -- now rewrite app_assoc.
        -- rewrite length_skipn. lia.
      * cbn [app]. rewrite IH by (simpl in Hlen; lia). reflexivity.
Qed.

Lemma scan_boundary (a b : jsstring) :
  scan m 0 (a ++ c :: b) = scan m 0 a ++ c :: scan m 0 b.
Proof. apply (scan_boundary_bounded (length a)). apply Nat.le_refl. Qed.

End Boundary.

Lemma matches_classes_length (classes : list (N -> bool)) :
  forall s, matches_classes classes s = true -> (length classes <= length s)%nat.
Proof.
  induction classes as [| p classes IH]; intros [| x s] H; simpl in *;
    try lia; try discriminate.
  apply andb_true_iff in H. specialize (IH s (proj2 H)). lia.
Qed.

Lemma matches_classes_across (classes : list (N -> bool)) (c : N) :
  Forall (fun p => p c = false) classes ->
  forall a b, matches_classes classes (a ++ c :: b) = matches_classes classes a.
Proof.
  induction 1 as [| p classes Hp Hall IH]; intros a b.
  - now destruct a.
  - destruct a as [| x a]; cbn [app matches_classes].
    + now rewrite Hp.
    + now rewrite IH.
Qed.

(** A pattern of character classes neither starts at nor extends across a
    character that belongs to none of the classes. *)
Lemma re_remove_boundary (classes : list (N -> bool)) (c : N) (a b : jsstring) :
  classes <> [] ->
  Forall (fun p => p c = false) classes ->
  replaceAll (re_remove classes) (a ++ c :: b)
  = replaceAll (re_remove classes) a ++ c :: replaceAll (re_remove classes) b.
Proof.
  intros Hne Hall. unfold replaceAll. apply scan_boundary.
  - intros b'. unfold re_remove.
    change (c :: b') with ([] ++ c :: b').
    rewrite (matches_classes_across classes c Hall).
    destruct classes; [congruence | reflexivity].
  - intros a' b'. unfold re_remove.
    now rewrite (matches_classes_across classes c Hall).
  - intros a' rep len. unfold re_remove.
    destruct (matches_classes classes a') eqn:Hm; [| discriminate].
    intros [= <- <-]. apply matches_classes_length in Hm.
    destruct classes; [congruence | simpl in *; lia].
Qed.

Lemma matches_classes_startsWith (p : jsstring) (classes : list (N -> bool)) :
  forall t, matches_classes (List.map N.eqb p ++ classes) t = true ->
            startsWith p t = true.
Proof.
  induction p as [| a p IH]; intros t H; [now destruct t |].
  destruct t as [| x t]; [discriminate |].
  cbn in H |- *. apply andb_true_iff in H. destruct H as [Hx Ht].
  rewrite Hx. exact (IH t Ht).
Qed.

(** A text without three backquotes in a row is left as it is by a pattern
    that starts with them. *)
Lemma re_remove_fence_free (classes : list (N -> bool)) (s : jsstring) :
  includes s (lit "```") = false ->
  replaceAll (re_remove (N.eqb c_tick :: N.eqb c_tick :: N.eqb c_tick :: classes)) s = s.
Proof.
  unfold replaceAll. induction s as [| x s IH]; intros Hfree; [reflexivity |].
  cbn [includes] in Hfree. apply orb_false_iff in Hfree. destruct Hfree as [Hhere Hrest].
  rewrite scan_cons. unfold re_remove at 1.
  assert (Hno : matches_classes
                  (N.eqb c_tick :: N.eqb c_tick :: N.eqb c_tick :: classes) (x :: s)
                = false).
  { destruct (matches_classes _ (x :: s)) eqn:Hm; [| reflexivity].
    change (N.eqb c_tick :: N.eqb c_tick :: N.eqb c_tick :: classes)
      with (List.map N.eqb (lit "```") ++ classes) in Hm.
    apply matches_classes_startsWith in Hm. congruence. }
  rewrite Hno. now rewrite IH.
Qed.

Lemma indexOf_first (c : N) (a b : jsstring) :
  ~ In c a -> indexOf c (a ++ c :: b) = Z.of_nat (length a).
Proof.
  induction a as [| x a IH]; intros Hnot.
  - cbn. now rewrite N.eqb_refl.
  - cbn [app indexOf length].
    destruct (x =? c)%N eqn:Hx; [apply N.eqb_eq in Hx; subst; elim Hnot; now left |].
    rewrite IH by (intros Hin; apply Hnot; now right).
    destruct (Z.of_nat (length a) =? -1)%Z eqn:Hneg; lia.
Qed.

Lemma lastIndexOf_absent (c : N) (b : jsstring) :
  ~ In c b -> lastIndexOf c b = (-1)%Z.
Proof.
  induction b as [| x b IH]; intros Hnot; [reflexivity |].
  cbn [lastIndexOf]. rewrite IH by (intros Hin; apply Hnot; now right).
  cbn. destruct (x =? c)%N eqn:Hx; [| reflexivity].
  apply N.eqb_eq in Hx. subst. elim Hnot. now left.
Qed.

Lemma lastIndexOf_last (c : N) (a b : jsstring) :
  ~ In c b -> lastIndexOf c (a ++ c :: b) = Z.of_nat (length a).
Proof.
  intros Hnot. induction a as [| x a IH].
  - cbn [app lastIndexOf length]. rewrite (lastIndexOf_absent c b Hnot).
    cbn. now rewrite N.eqb_refl.
  - cbn [app lastIndexOf length]. rewrite IH.
    destruct (Z.of_nat (length a) =? -1)%Z eqn:Hneg; lia.
Qed.

Lemma startsWith_app (p s b : jsstring) :
  startsWith p s = true -> startsWith p (s ++ b) = true.
Proof.
  revert s. induction p as [| a p IH]; intros [| x s] H; try reflexivity;
    try discriminate.
  cbn [startsWith app] in *. apply andb_true_iff in H.
  now rewrite (proj1 H), (IH s (proj2 H)).
Qed.

Lemma includes_app_l (a b sub : jsstring) :
  includes a sub = true -> includes (a ++ b) sub = true.
Proof.
  induction a as [| x a IH]; intros H.
  - destruct sub; [| discriminate]. now destruct b.
  - cbn [includes app] in *. apply orb_true_iff in H. apply orb_true_iff.
    destruct H as [H | H]; [left | right; now apply IH].
    now apply (startsWith_app sub (x :: a) b).
Qed.

Lemma span_split (p : N -> bool) (s : jsstring) :
  s = span p s ++ skipn (length (span p s)) s.
Proof.
  induction s as [| c s IH]; [reflexivity |].
  cbn [span]. destruct (p c); [| reflexivity].
  cbn [length skipn app]. now rewrite <- IH.
Qed.

(** What a match of the trailing-comma pattern consists of: the comma, white
    space, and a closing bracket; all but the comma is written back. *)
Lemma re_trailing_comma_shape (x : N) (s rep : jsstring) (len : nat) :
  re_trailing_comma (x :: s) = Some (rep, len) ->
  exists ws d rest,
    s = ws ++ d :: rest /\ rep = ws ++ [d] /\ skipn (pred len) s = rest.
Proof.
  unfold re_trailing_comma. destruct (x =? c_comma)%N; [| discriminate].
  pose proof (span_split is_space s) as Hsplit.
  destruct (skipn (length (span is_space s)) s) as [| d rest] eqn:Hrest;
    [discriminate |].
  destruct ((d =? c_rbrack)%N || (d =? c_rbrace)%N); [| discriminate].
  intros [= <- <-]. exists (span is_space s), d, rest.
  repeat split; [exact Hsplit |].
  cbn [pred]. rewrite Hsplit at 2.
  rewrite skipn_app, skipn_all2 by lia.
  replace (S (length (span is_space s)) - length (span is_space s))%nat
    with 1%nat by lia.
  reflexivity.
Qed.

(** Removing trailing commas keeps the last character of the text. *)
Lemma scan_comma_keeps_last (n : nat) :
  forall (s : jsstring) (z : N),
    (length s <= n)%nat ->
    exists r, scan re_trailing_comma 0 (s ++ [z]) = r ++ [z].
Proof.
  induction n as [| n IH]; intros s z Hlen.
  - destruct s; [| simpl in Hlen; lia].
    exists []. cbn. now destruct (z =? c_comma)%N.
  - destruct s as [| x s].
    + exists []. cbn. now destruct (z =? c_comma)%N.
    + cbn [app]. rewrite scan_cons.
      destruct (re_trailing_comma (x :: s ++ [z])) as [[rep len] |] eqn:Hm.
      * apply re_trailing_comma_shape in Hm.
        destruct Hm as (ws & d & rest & Hs & -> & ->).
        destruct rest as [| y rest'] using rev_ind.
        -- apply app_inj_tail in Hs. destruct Hs as [_ <-].
           exists ws. cbn. now rewrite app_nil_r.
        -- clear IHrest'.
           change (ws ++ d :: rest' ++ [y]) with (ws ++ (d :: rest') ++ [y]) in Hs.
           rewrite app_assoc in Hs. apply app_inj_tail in Hs.
           destruct Hs as [Hs <-].
           destruct (IH rest' z) as [r Hr].
           { subst s. cbn [length] in Hlen. rewrite length_app in Hlen.
             cbn [length] in Hlen. lia. }
           exists ((ws ++ [d]) ++ r). rewrite Hr. now rewrite app_assoc.
      * destruct (IH s z) as [r Hr]; [simpl in Hlen; lia |].
        exists (x :: r). now rewrite Hr.
Qed.

Lemma trim_bracketed (r : jsstring) :
  trim (c_lbrack :: r ++ [c_rbrack]) = c_lbrack :: r ++ [c_rbrack].
Proof.
  unfold trim. cbn [trimStart]. change (is_space c_lbrack) with false. cbv iota.
  replace (rev (c_lbrack :: r ++ [c_rbrack])) with (c_rbrack :: rev r ++ [c_lbrack])
    by (cbn [rev]; rewrite rev_app_distr; reflexivity).
  cbn [trimStart]. change (is_space c_rbrack) with false. cbv iota.
  cbn [rev]. rewrite rev_app_distr, rev_involutive. reflexivity.
Qed.

Lemma cleanJson_cons (x : N) (t : jsstring) :
  cleanJson (x :: t) =
  let clean := replaceAll re_fence (replaceAll re_fence_json (x :: t)) in
  let start := indexOf c_lbrack clean in
  let end_ := lastIndexOf c_rbrack clean in
  trim (replaceAll re_trailing_comma
          (if negb (start =? -1)%Z && negb (end_ =? -1)%Z && (end_ >? start)%Z
           then substring start (end_ + 1) clean else clean)).
Proof. reflexivity. Qed.

(** Both fence patterns leave [[] and []] in place and the text between
    them untouched when it holds no fence. *)
Lemma strip_fences_around (pre body post : jsstring) :
  includes body (lit "```") = false ->
  replaceAll re_fence
    (replaceAll re_fence_json (pre ++ c_lbrack :: body ++ c_rbrack :: post))
  = replaceAll re_fence (replaceAll re_fence_json pre)
    ++ c_lbrack :: body
    ++ c_rbrack :: replaceAll re_fence (replaceAll re_fence_json post).
Proof.
  intros Hfree. unfold re_fence_json, re_fence.
  rewrite (re_remove_boundary _ c_lbrack) by (try discriminate; repeat constructor).
  rewrite (re_remove_boundary _ c_rbrack body) by (try discriminate; repeat constructor).
  rewrite (re_remove_fence_free _ body Hfree).
  rewrite (re_remove_boundary _ c_lbrack) by (try discriminate; repeat constructor).
  rewrite (re_remove_boundary _ c_rbrack body) by (try discriminate; repeat constructor).
  change [N.eqb c_tick; N.eqb c_tick; N.eqb c_tick]
    with (N.eqb c_tick :: N.eqb c_tick :: N.eqb c_tick :: []).
  rewrite (re_remove_fence_free _ body Hfree).
  reflexivity.
Qed.

Lemma strip_fences_keeps_out (c : N) (s : jsstring) :
  ~ In c s -> ~ In c (replaceAll re_fence (replaceAll re_fence_json s)).
Proof.
  intros Hnot Hin. apply Hnot. unfold replaceAll in Hin.
  apply scan_removes_only in Hin.
  - apply scan_removes_only in Hin; [exact Hin |].
    intros t rep len. unfold re_fence_json, re_remove.
    destruct (matches_classes _ t); [now intros [= <- _] | discriminate].
  - intros t rep len. unfold re_fence, re_remove.
    destruct (matches_classes _ t); [now intros [= <- _] | discriminate].
Qed.

Lemma re_trailing_comma_lbrack (s : jsstring) :
  re_trailing_comma (c_lbrack :: s) = None.
Proof. reflexivity. Qed.

Lemma cleanJson_between (pre body post : jsstring) :
  ~ In c_lbrack pre ->
  ~ In c_rbrack post ->
  includes (c_lbrack :: body ++ [c_rbrack]) (lit "```") = false ->
  cleanJson (pre ++ (c_lbrack :: body ++ [c_rbrack]) ++ post)
  = replaceAll re_trailing_comma (c_lbrack :: body ++ [c_rbrack]).
Proof.
  intros Hpre Hpost Hfree.
  assert (Hbody : includes body (lit "```") = false).
  { cbn [includes] in Hfree. apply orb_false_iff in Hfree.
    destruct (includes body (lit "```")) eqn:E; [| reflexivity].
    apply (includes_app_l body [c_rbrack]) in E. destruct Hfree. congruence. }
  replace (pre ++ (c_lbrack :: body ++ [c_rbrack]) ++ post)
    with (pre ++ c_lbrack :: body ++ c_rbrack :: post)
    by (cbn [app]; now rewrite <- app_assoc).
  remember (pre ++ c_lbrack :: body ++ c_rbrack :: post) as text eqn:Htext.
  destruct text as [| x t]; [destruct pre; discriminate |].
  rewrite cleanJson_cons, Htext, (strip_fences_around pre body post Hbody).
  pose proof (strip_fences_keeps_out c_lbrack pre Hpre) as Hpre'.
  pose proof (strip_fences_keeps_out c_rbrack post Hpost) as Hpost'.
  set (pre' := replaceAll re_fence (replaceAll re_fence_json pre)) in *.
  set (post' := replaceAll re_fence (replaceAll re_fence_json post)) in *.
  cbv zeta.
  rewrite (indexOf_first c_lbrack pre' (body ++ c_rbrack :: post') Hpre').
  assert (Hend : lastIndexOf c_rbrack (pre' ++ c_lbrack :: body ++ c_rbrack :: post')
                 = Z.of_nat (length pre' + S (length body))).
  { replace (pre' ++ c_lbrack :: body ++ c_rbrack :: post')
      with ((pre' ++ c_lbrack :: body) ++ c_rbrack :: post')
      by now rewrite <- app_assoc.
    rewrite (lastIndexOf_last c_rbrack _ post' Hpost'), length_app.
    reflexivity. }
  rewrite Hend.
  assert (Hguard : (negb (Z.of_nat (length pre') =? -1)
                    && negb (Z.of_nat (length pre' + S (length body)) =? -1)
                    && (Z.of_nat (length pre' + S (length body))
                        >? Z.of_nat (length pre')))%Z = true).
  { rewrite !andb_true_iff, !negb_true_iff, !Z.eqb_neq, Z.gtb_lt. lia. }
  rewrite Hguard. unfold substring.
  rewrite Z2Nat.inj_add, !Nat2Z.id by lia.
  rewrite skipn_app, skipn_all, Nat.sub_diag. cbn [skipn app].
  replace (length pre' + S (length body) + Z.to_nat 1 - length pre')%nat
    with (length (c_lbrack :: body ++ [c_rbrack]))
    by (cbn [length]; rewrite length_app; cbn [length]; lia).
  replace (c_lbrack :: body ++ c_rbrack :: post')
    with ((c_lbrack :: body ++ [c_rbrack]) ++ post')
    by (cbn [app]; now rewrite <- app_assoc).
  rewrite firstn_app, firstn_all, Nat.sub_diag. cbn [firstn]. rewrite app_nil_r.
  unfold replaceAll. rewrite scan_cons, re_trailing_comma_lbrack.
  destruct (scan_comma_keeps_last (length body) body c_rbrack (Nat.le_refl _))
    as [r Hr].
  rewrite Hr. apply trim_bracketed.
Qed.

Lemma span_satisfies (p : N -> bool) (s : jsstring) :
  Forall (fun c => p c = true) (span p s).
Proof.
  induction s as [| c s IH]; [constructor |].
  cbn [span]. destruct (p c) eqn:Hc; [now constructor | constructor].
Qed.

Lemma re_trailing_comma_cases (x : N) (t : jsstring) :
  re_trailing_comma (x :: t) =
  if (x =? c_comma)%N && closes_next t
  then match skipn (length (span is_space t)) t with
       | d :: _ => Some (span is_space t ++ [d], S (S (length (span is_space t))))
       | [] => None
       end
  else None.
Proof.
  unfold re_trailing_comma, closes_next. destruct (x =? c_comma)%N; [| reflexivity].
  destruct (skipn (length (span is_space t)) t) as [| d rest]; [reflexivity |].
  now destruct ((d =? c_rbrack)%N || (d =? c_rbrace)%N).
Qed.

Lemma without_trailing_commas_copies (a b : jsstring) :
  Forall (fun c => c <> c_comma) a ->
  without_trailing_commas (a ++ b) = a ++ without_trailing_commas b.
Proof.
  induction 1 as [| c a Hc _ IH]; [reflexivity |].
  cbn [app without_trailing_commas]. apply N.eqb_neq in Hc. rewrite Hc.
  cbn [andb]. now rewrite IH.
Qed.

(** The replacement made with the pattern of the source is the textual
    rule: the match resumes after the bracket, and what lies between the
    comma and the bracket holds no comma. *)
Lemma strip_commas_textual (s : jsstring) :
  replaceAll re_trailing_comma s = without_trailing_commas s.
Proof.
  unfold replaceAll.
  assert (Hall : forall n s, (length s <= n)%nat ->
                             scan re_trailing_comma 0 s = without_trailing_commas s).
  { induction n as [| n IH]; intros [| x t] Hlen; try reflexivity;
      [simpl in Hlen; lia |].
    rewrite scan_cons, re_trailing_comma_cases. cbn [without_trailing_commas].
    destruct ((x =? c_comma)%N && closes_next t) eqn:Hcase.
    - pose proof (span_split is_space t) as Hsplit.
      pose proof (span_satisfies is_space t) as Hws.
      unfold closes_next in Hcase. apply andb_true_iff in Hcase.
      destruct Hcase as [_ Hcloser].
      destruct (skipn (length (span is_space t)) t) as [| d rest] eqn:Hrest;
        [discriminate |].
      cbn [pred].
      assert (Hskip : skipn (S (length (span is_space t))) t = rest).
      { rewrite Hsplit at 2. rewrite skipn_app, skipn_all2 by lia.
        replace (S (length (span is_space t)) - length (span is_space t))%nat
          with 1%nat by lia.
        reflexivity. }
      rewrite Hskip, IH.
      + rewrite Hsplit at 2.
        change (span is_space t ++ d :: rest) with (span is_space t ++ [d] ++ rest).
        rewrite app_assoc. symmetry. apply without_trailing_commas_copies.
        apply Forall_app. split.
        * eapply Forall_impl; [| exact Hws]. intros c Hc ->. discriminate.
        * constructor; [| constructor]. intros ->. discriminate.
      + apply (f_equal (@length N)) in Hsplit. rewrite length_app in Hsplit.
        cbn [length] in Hsplit, Hlen. lia.
    - rewrite IH by (simpl in Hlen; lia). reflexivity. }
  exact (Hall (length s) s (Nat.le_refl _)).
Qed.

(** C5, as the code has it.  [cleanJson] gives [[]] for the empty text.  For
    a text made of an array (from its [[] to its []], with no fence inside)
    between a text before it without [[] and a text after it without []]
    (fences and prose among them), it gives exactly the array, with every
    comma left out that is followed, after white space if any, by []] or
    [}]; the rule is textual and applies inside string literals too.  The
    fenced response of the specification becomes a text that [JSON.parse]
    reads as an array of one element. *)
Theorem cleanJson_extracts_array :
  cleanJson [] = lit "[]"
  /\ (forall pre body post : jsstring,
         ~ In c_lbrack pre ->
         ~ In c_rbrack post ->
         includes (c_lbrack :: body ++ [c_rbrack]) (lit "```") = false ->
         cleanJson (pre ++ (c_lbrack :: body ++ [c_rbrack]) ++ post)
         = without_trailing_commas (c_lbrack :: body ++ [c_rbrack]))
  /\ cleanJson fenced_plan = fenced_plan_cleaned
  /\ Json.parse (cleanJson fenced_plan)
     = Some (JArray [ JObject [ (lit "type", JString (lit "IMAGE"));
                                (lit "description", JString (lit "Intro")) ] ]).
Proof.
  split; [reflexivity |].
  split.
  - intros pre body post Hpre Hpost Hfree.
    rewrite (cleanJson_between pre body post Hpre Hpost Hfree).
    apply strip_commas_textual.
  - split; vm_compute; reflexivity.
Qed.

Lemma cleanJson_extracts_array_witness :
  cleanJson (lit "Here is the plan: ```json" ++ (c_lbrack :: lit "1,2,{}," ++ [c_rbrack])
             ++ lit "``` Let me know if you need more.")
  = lit "[1,2,{}]".
Proof.
  rewrite (proj1 (proj2 cleanJson_extracts_array)
             (lit "Here is the plan: ```json") (lit "1,2,{},")
             (lit "``` Let me know if you need more.")).
  - reflexivity.
  - vm_compute. intuition discriminate.
  - vm_compute. intuition discriminate.
  - reflexivity.
Defined.

(** The rule at work inside a string literal: the array is well formed and
    has no trailing comma, and the comma of its string is removed. *)
Example comma_inside_string :
  cleanJson fenced_string_array = lit "[" ++ quoted (lit "x]") ++ lit "]"
  /\ Json.parse (lit "[" ++ quoted (lit "x,]") ++ lit "]")
     = Some (JArray [JString (lit "x,]")])
  /\ Json.parse (cleanJson fenced_string_array) = Some (JArray [JString (lit "x]")]).
Proof. repeat split. Qed.

(** C5, as stated, fails: prose with a bracket of its own moves the span
    that is cut out. *)
Lemma cleanJson_prose_with_brackets :
  ~ (forall (prose1 prose2 array : jsstring) (items : list json),
        Json.parse array = Some (JArray items) ->
        cleanJson (prose1 ++ lit "```json" ++ [c_nl] ++ array ++ [c_nl]
                   ++ lit "```" ++ prose2)
        = replaceAll re_trailing_comma array).
Proof.
  intros Hclaim.
  specialize (Hclaim (lit "See [1] for the plan: ") (lit " Done.") (lit "[1,2]")
                     [JNumber (lit "1"); JNumber (lit "2")] eq_refl).
  vm_compute in Hclaim. discriminate.
Qed.

Example prose_with_brackets_run :
  cleanJson (lit "See [1] for the plan: ```json" ++ [c_nl] ++ lit "[1,2]" ++ [c_nl]
             ++ lit "``` Done.")
  = lit "[1] for the plan: " ++ [c_nl] ++ lit "[1,2]".
Proof. reflexivity. Qed.

(** ** Archive text extraction *)

(** The loop keeps the number of files within [MAX_FILES], and keeps only
    files with a relevant extension and without a NUL character. *)
Lemma extract_loop_invariant (contents : Zip.ZipFiles) (sortedEntries : list jsstring) :
  forall (files out : list ProjectFile) (totalSize : Z),
    (length files <= Zip.MAX_FILES)%nat ->
    Forall extracted_ok files ->
    Zip.extract_loop contents sortedEntries files totalSize = Return out ->
    (length out <= Zip.MAX_FILES)%nat /\ Forall extracted_ok out.
Proof.
  induction sortedEntries as [| filename rest IH]; intros files out totalSize Hlen Hok Hrun;
    cbn [Zip.extract_loop] in Hrun.
  - injection Hrun as <-. now split.
  - destruct (Zip.MAX_FILES <=? length files)%nat eqn:Hfull;
      [injection Hrun as <-; now split |].
    destruct (Zip.MAX_TOTAL_SIZE <=? totalSize)%Z;
      [injection Hrun as <-; now split |].
    destruct (Zip.lookup filename contents) as [fileEntry |]; [| discriminate].
    destruct (Zip.dir fileEntry); [exact (IH _ _ _ Hlen Hok Hrun) |].
    destruct (Zip.isRelevant filename) eqn:Hrel; cbn [negb] in Hrun;
      [| exact (IH _ _ _ Hlen Hok Hrun)].
    destruct (includes (Zip.text fileEntry) [0%N]) eqn:Hnul;
      [exact (IH _ _ _ Hlen Hok Hrun) |].
    apply (IH _ _ _) in Hrun; [exact Hrun | |].
    + apply Nat.leb_gt in Hfull. rewrite length_app. cbn [length]. lia.
    + apply Forall_app. split; [exact Hok |].
      constructor; [| constructor]. split; assumption.
Qed.

(** What holds of C3 besides the size: at most 50 files, each with an allow-listed
    extension and without a NUL character. *)
Lemma extractTextFromZip_selection (contents : Zip.ZipFiles) (out : list ProjectFile) :
  Zip.extractTextFromZip (Answers contents) = Return out ->
  (length out <= 50)%nat /\ Forall extracted_ok out.
Proof.
  unfold Zip.extractTextFromZip. intros Hrun.
  apply extract_loop_invariant in Hrun; [exact Hrun | | constructor].
  unfold Zip.MAX_FILES. cbn [length]. lia.
Qed.

(** An archive with a single text file gives that file whole, whatever its
    length. *)
Lemma extractTextFromZip_single_file (textContent : jsstring) :
  includes textContent [0%N] = false ->
  Zip.extractTextFromZip
    (Answers [ (lit "notes.txt", {| Zip.dir := false; Zip.text := textContent |}) ])
  = Return [ {| name := lit "notes.txt"; content := textContent |} ].
Proof.
  intros Hnul. unfold Zip.extractTextFromZip.
  cbn [List.map fst Zip.sort fold_right Zip.insert Zip.extract_loop length].
  change (Zip.MAX_FILES <=? 0)%nat with false.
  change (Zip.MAX_TOTAL_SIZE <=? 0)%Z with false. cbv iota.
  change (Zip.lookup (lit "notes.txt")
            [ (lit "notes.txt", {| Zip.dir := false; Zip.text := textContent |}) ])
    with (Some {| Zip.dir := false; Zip.text := textContent |}).
  cbn [Zip.dir Zip.text].
  change (Zip.isRelevant (lit "notes.txt")) with true. cbn [negb].
  rewrite Hnul. reflexivity.
Qed.

Lemma repeat_without_nul (n : nat) : includes (repeat 97%N n) [0%N] = false.
Proof. induction n as [| n IH]; [reflexivity |]. cbn [repeat includes]. exact IH. Qed.

(** C3 fails on the size: the archive with one text file of 512001
    characters is extracted whole, so the cumulative length, 512001, is above
    [MAX_TOTAL_SIZE] = 512000. *)
Theorem extractTextFromZip_exceeds_cap :
  Zip.extractTextFromZip (Answers long_archive)
  = Return [ {| name := lit "notes.txt"; content := long_text |} ]
  /\ Zip.total_size [ {| name := lit "notes.txt"; content := long_text |} ] = 512001%Z
  /\ (Zip.MAX_TOTAL_SIZE < 512001)%Z.
Proof.
  split; [| split].
  - apply extractTextFromZip_single_file. apply repeat_without_nul.
  - unfold Zip.total_size, Zip.size, long_text.
    cbn [fold_right content]. rewrite repeat_length, Z2Nat.id by lia. lia.
  - reflexivity.
Qed.

(* ------------------------------------------------------------------ *)
(** * Further properties *)
(* ------------------------------------------------------------------ *)

(** ** Scanning and trimming *)

(** Induction along a scan: a property of the text and of what the scan
    writes for it, shown at a match and at a copied character. *)
Lemma scan_rel_ind (m : matcher) (P : jsstring -> jsstring -> Prop) :
  P [] [] ->
  (forall x s rep len,
      m (x :: s) = Some (rep, len) ->
      P (skipn (pred len) s) (scan m 0 (skipn (pred len) s)) ->
      P (x :: s) (rep ++ scan m 0 (skipn (pred len) s))) ->
  (forall x s, m (x :: s) = None -> P s (scan m 0 s) -> P (x :: s) (x :: scan m 0 s)) ->
  forall s, P s (scan m 0 s).
Proof.
  intros Hnil Hmatch Hcopy s.
  assert (Hall : forall n s, (length s <= n)%nat -> P s (scan m 0 s)).
  { induction n as [| n IH]; intros [| x t] Hlen; try exact Hnil;
      [simpl in Hlen; lia |].
    rewrite scan_cons. destruct (m (x :: t)) as [[rep len] |] eqn:Hm.
    - apply Hmatch; [exact Hm |]. apply IH. rewrite length_skipn.
      simpl in Hlen. lia.
    - apply Hcopy; [exact Hm |]. apply IH. simpl in Hlen. lia. }
  exact (Hall (length s) s (Nat.le_refl _)).
Qed.

(** What a scan writes comes from the text or from a replacement. *)
Lemma scan_In (m : matcher) (x : N) (s : jsstring) :
  forall k, In x (scan m k s) ->
            In x s \/ exists t rep len, m t = Some (rep, len) /\ In x rep.
Proof.
  induction s as [| c s IH]; intros k Hin; [now left |].
  destruct k as [| k]; cbn [scan] in Hin.
  - destruct (m (c :: s)) as [[rep len] |] eqn:Hm.
    + apply in_app_or in Hin. destruct Hin as [Hin | Hin].
      * right. now exists (c :: s), rep, len.
      * destruct (IH _ Hin) as [H | H]; [left; now right | now right].
    + destruct Hin as [-> | Hin]; [left; now left |].
      destruct (IH _ Hin) as [H | H]; [left; now right | now right].
  - destruct (IH _ Hin) as [H | H]; [left; now right | now right].
Qed.

Lemma trimStart_starts_clean (s : jsstring) : starts_clean (trimStart s).
Proof.
  induction s as [| c s IH]; [exact I |].
  cbn [trimStart]. destruct (is_space c) eqn:Hc; [exact IH | exact Hc].
Qed.

Lemma trimStart_split (s : jsstring) :
  exists ws, s = ws ++ trimStart s /\ Forall (fun c => is_space c = true) ws.
Proof.
  induction s as [| c s IH]; [now exists [] |].
  cbn [trimStart]. destruct (is_space c) eqn:Hc.
  - destruct IH as (ws & Hs & Hws). exists (c :: ws). split.
    + cbn [app]. now rewrite <- Hs.
    + now constructor.
  - now exists [].
Qed.

(** [trim] removes white space at both ends and nothing else. *)
Lemma trim_split (s : jsstring) :
  exists l r,
    s = l ++ trim s ++ r
    /\ Forall (fun c => is_space c = true) l
    /\ Forall (fun c => is_space c = true) r.
Proof.
  destruct (trimStart_split s) as (l & Hs & Hl).
  destruct (trimStart_split (rev (trimStart s))) as (w & Hr & Hw).
  exists l, (rev w). repeat split; [| exact Hl | now apply Forall_rev].
  unfold trim. rewrite <- rev_app_distr, <- Hr, rev_involutive. exact Hs.
Qed.

Lemma trim_ends_clean (s : jsstring) : ends_clean (trim s).
Proof.
  unfold ends_clean, trim. rewrite rev_involutive. apply trimStart_starts_clean.
Qed.

Lemma trim_starts_clean (s : jsstring) : starts_clean (trim s).
Proof.
  pose proof (trimStart_starts_clean s) as Hclean.
  destruct (trimStart_split (rev (trimStart s))) as (w & Hr & _).
  apply (f_equal (@rev N)) in Hr. rewrite rev_involutive, rev_app_distr in Hr.
  fold (trim s) in Hr. rewrite Hr in Hclean.
  destruct (trim s) as [| c u]; [exact I | exact Hclean].
Qed.

Lemma trim_In (x : N) (s : jsstring) : In x (trim s) -> In x s.
Proof.
  intros Hin. destruct (trim_split s) as (l & r & Hs & _).
  rewrite Hs. apply in_or_app. right. apply in_or_app. now left.
Qed.

(** ** TTS script cleaner *)

Lemma single_spaced_tail (c : N) (s : jsstring) :
  single_spaced (c :: s) = true -> single_spaced s = true.
Proof. cbn [single_spaced]. intros H. now apply andb_true_iff in H. Qed.

Lemma single_spaced_app (a b : jsstring) :
  single_spaced (a ++ b) = true -> single_spaced a = true /\ single_spaced b = true.
Proof.
  induction a as [| c a IH]; intros H; [now split |].
  cbn [app single_spaced] in H |- *. apply andb_true_iff in H. destruct H as [Hc Hrest].
  destruct (IH Hrest) as [Ha Hb]. split; [| exact Hb].
  rewrite Ha, andb_true_r. destruct (is_space c); [| reflexivity].
  apply andb_true_iff in Hc. destruct Hc as [Heq Hnext].
  rewrite Heq. destruct a as [| d a]; [reflexivity | exact Hnext].
Qed.

Lemma single_spaced_plain (s : jsstring) : single_spaced s = true -> plain_spaces s.
Proof.
  unfold plain_spaces. induction s as [| c s IH]; intros H; [constructor |].
  pose proof (single_spaced_tail c s H) as Htail.
  cbn [single_spaced] in H. apply andb_true_iff in H. destruct H as [Hc _].
  constructor; [| exact (IH Htail)].
  intros Hsp. rewrite Hsp in Hc. apply andb_true_iff in Hc.
  now apply N.eqb_eq.
Qed.

Lemma single_spaced_no_run (s : jsstring) : single_spaced s = true -> no_space_run s.
Proof.
  intros H a b before. revert s H.
  induction before as [| x before IH]; intros s H after -> Ha.
  - cbn [app single_spaced] in H. rewrite Ha in H.
    apply andb_true_iff in H. destruct H as [H _].
    apply andb_true_iff in H. destruct H as [_ H].
    now apply negb_true_iff.
  - apply (IH _ (single_spaced_tail _ _ H) after eq_refl Ha).
Qed.

Lemma span_stop (p : N -> bool) (s : jsstring) :
  match skipn (length (span p s)) s with
  | d :: _ => p d = false
  | [] => True
  end.
Proof.
  induction s as [| c s IH]; [exact I |].
  cbn [span]. destruct (p c) eqn:Hc; [exact IH | exact Hc].
Qed.

(** After the pass that collapses white space, every white-space character
    is a plain space followed by none, and a text that starts with another
    character still starts with it. *)
Lemma collapse_spaces_single (s : jsstring) :
  single_spaced (replaceAll re_spaces s) = true
  /\ match s with
     | d :: _ => if is_space d then True else hd_error (replaceAll re_spaces s) = Some d
     | [] => replaceAll re_spaces s = []
     end.
Proof.
  unfold replaceAll.
  apply (scan_rel_ind re_spaces
           (fun s out =>
              single_spaced out = true
              /\ match s with
                 | d :: _ => if is_space d then True else hd_error out = Some d
                 | [] => out = []
                 end)).
  - now split.
  - intros x t rep len Hm [IHs IHh]. unfold re_spaces in Hm. cbn [span] in Hm.
    destruct (is_space x) eqn:Hx; [| discriminate].
    injection Hm as <- <-. cbn [length pred] in *. split; [| exact I].
    cbn [app single_spaced]. change (is_space c_space) with true.
    rewrite N.eqb_refl, IHs, andb_true_r. cbn [andb].
    pose proof (span_stop is_space t) as Hstop.
    destruct (skipn (length (span is_space t)) t) as [| d r].
    + now rewrite IHh.
    + rewrite Hstop in IHh.
      destruct (scan re_spaces 0 (d :: r)) as [| e out]; [discriminate |].
      injection IHh as ->. now rewrite Hstop.
  - intros x t Hm [IHs _]. unfold re_spaces in Hm. cbn [span] in Hm.
    destruct (is_space x) eqn:Hx; [discriminate |].
    split; [| reflexivity].
    cbn [single_spaced]. now rewrite Hx, IHs.
Qed.

(** X1. The cleaned script has its white space normalised: every white-space
    character is a plain space, no two of them are adjacent, and the text
    neither starts nor ends with one. *)
Theorem cleanScriptForTTS_spacing (text : jsstring) :
  plain_spaces (cleanScriptForTTS text)
  /\ no_space_run (cleanScriptForTTS text)
  /\ starts_clean (cleanScriptForTTS text)
  /\ ends_clean (cleanScriptForTTS text).
Proof.
  unfold cleanScriptForTTS.
  set (collapsed := replaceAll re_spaces _).
  assert (Hsingle : single_spaced (trim collapsed) = true).
  { destruct (trim_split collapsed) as (l & r & Hs & _).
    pose proof (proj1 (collapse_spaces_single
                         (replaceAll (re_enclosed c_lparen c_rparen)
                            (replaceAll (re_enclosed c_lbrack c_rbrack)
                               (replaceAll re_stars text))))) as Hc.
    fold collapsed in Hc. rewrite Hs in Hc.
    apply single_spaced_app in Hc. destruct Hc as [_ Hc].
    now apply single_spaced_app in Hc. }
  repeat split.
  - now apply single_spaced_plain.
  - now apply single_spaced_no_run.
  - apply trim_starts_clean.
  - apply trim_ends_clean.
Qed.

Lemma re_stars_skips_run (x : N) (s rep : jsstring) (len : nat) :
  re_stars (x :: s) = Some (rep, len) -> rep = [].
Proof.
  unfold re_stars. destruct (span (N.eqb c_star) (x :: s)); [discriminate |].
  now intros [= <- _].
Qed.

Lemma re_stars_copies_other (x : N) (s : jsstring) :
  re_stars (x :: s) = None -> x <> c_star.
Proof.
  unfold re_stars. cbn [span]. intros H ->. now rewrite N.eqb_refl in H.
Qed.

Lemma strip_stars_no_star (s : jsstring) : ~ In c_star (replaceAll re_stars s).
Proof.
  unfold replaceAll.
  apply (scan_rel_ind re_stars (fun _ out => ~ In c_star out)).
  - intros [].
  - intros x t rep len Hm IH. now rewrite (re_stars_skips_run x t rep len Hm).
  - intros x t Hm IH [Heq | Hin]; [| exact (IH Hin)].
    now apply (re_stars_copies_other x t Hm).
Qed.

Lemma re_enclosed_writes_space (open close : N) (t rep : jsstring) (len : nat) :
  re_enclosed open close t = Some (rep, len) -> rep = [c_space].
Proof.
  unfold re_enclosed. destruct t as [| c t]; [discriminate |].
  destruct (c =? open)%N; [| discriminate].
  destruct (skipn _ t) as [| d r]; [discriminate |].
  destruct (d =? close)%N; [| discriminate].
  now intros [= <- _].
Qed.

Lemma re_spaces_writes_space (t rep : jsstring) (len : nat) :
  re_spaces t = Some (rep, len) -> rep = [c_space].
Proof.
  unfold re_spaces. destruct (span is_space t); [discriminate |].
  now intros [= <- _].
Qed.

(** X2. The cleaned script holds no asterisk, whatever the text. *)
Theorem cleanScriptForTTS_no_asterisk (text : jsstring) :
  ~ In c_star (cleanScriptForTTS text).
Proof.
  unfold cleanScriptForTTS, replaceAll. intros Hin.
  apply trim_In in Hin.
  apply scan_In in Hin. destruct Hin as [Hin | (t & rep & len & Hm & Hin)];
    [| apply re_spaces_writes_space in Hm; subst rep;
       destruct Hin as [H | []]; discriminate].
  apply scan_In in Hin. destruct Hin as [Hin | (t & rep & len & Hm & Hin)];
    [| apply re_enclosed_writes_space in Hm; subst rep;
       destruct Hin as [H | []]; discriminate].
  apply scan_In in Hin. destruct Hin as [Hin | (t & rep & len & Hm & Hin)];
    [| apply re_enclosed_writes_space in Hm; subst rep;
       destruct Hin as [H | []]; discriminate].
  exact (strip_stars_no_star text Hin).
Qed.

(** ** JSON cleaner: what the result never holds *)

Lemma starts_fence_ticks (u : jsstring) :
  startsWith (lit "```") u = (3 <=? leading_ticks u)%nat.
Proof.
  change (lit "```") with [c_tick; c_tick; c_tick].
  destruct u as [| a [| b [| c u]]]; cbn [startsWith leading_ticks];
    rewrite ?(N.eqb_sym c_tick);
    repeat match goal with
           | |- context [(?x =? c_tick)%N] => destruct (x =? c_tick)%N
           end; reflexivity.
Qed.

Lemma fence_matches_ticks (u : jsstring) :
  matches_classes [N.eqb c_tick; N.eqb c_tick; N.eqb c_tick] u
  = (3 <=? leading_ticks u)%nat.
Proof.
  destruct u as [| a [| b [| c u]]]; cbn [matches_classes leading_ticks];
    rewrite ?(N.eqb_sym c_tick);
    repeat match goal with
           | |- context [(?x =? c_tick)%N] => destruct (x =? c_tick)%N
           end; reflexivity.
Qed.

Lemma includes_skipn (sub : jsstring) (n : nat) :
  forall s, includes s sub = false -> includes (skipn n s) sub = false.
Proof.
  induction n as [| n IH]; intros [| c s] H; try exact H.
  cbn [skipn]. apply IH. cbn [includes] in H. now apply orb_false_iff in H.
Qed.

Lemma includes_app_r (a b sub : jsstring) :
  includes (a ++ b) sub = false -> includes b sub = false.
Proof.
  intros H. apply (includes_skipn sub (length a)) in H.
  now rewrite skipn_app, skipn_all, Nat.sub_diag in H.
Qed.

Lemma includes_app_l_false (a b sub : jsstring) :
  includes (a ++ b) sub = false -> includes a sub = false.
Proof.
  intros H. destruct (includes a sub) eqn:Ha; [| reflexivity].
  apply (includes_app_l a b) in Ha. congruence.
Qed.

Lemma includes_firstn (sub : jsstring) (n : nat) (s : jsstring) :
  includes s sub = false -> includes (firstn n s) sub = false.
Proof.
  intros H. rewrite <- (firstn_skipn n s) in H. exact (includes_app_l_false _ _ _ H).
Qed.

(** A fence does not start at a character other than a backquote. *)
Lemma includes_fence_plain (a b : jsstring) :
  Forall (fun c => c <> c_tick) a ->
  includes b (lit "```") = false ->
  a <> [] \/ leading_ticks b < 3 ->
  includes (a ++ b) (lit "```") = false /\ leading_ticks (a ++ b) <= leading_ticks b.
Proof.
  intros Ha Hb. induction Ha as [| c a Hc Ha IH]; intros Hne.
  - cbn [app]. split; [exact Hb | apply Nat.le_refl].
  - cbn [app includes leading_ticks].
    apply N.eqb_neq in Hc. rewrite starts_fence_ticks. cbn [leading_ticks].
    rewrite Hc. cbn [Nat.leb orb]. split; [| apply Nat.le_0_l].
    destruct a as [| d a]; [exact Hb |].
    apply IH. left. discriminate.
Qed.

(** The pass that removes fences leaves none, and does not lengthen the run
    of backquotes the text starts with. *)
Lemma strip_fence_leaves_none (s : jsstring) :
  includes (replaceAll re_fence s) (lit "```") = false
  /\ leading_ticks (replaceAll re_fence s) <= leading_ticks s.
Proof.
  unfold replaceAll.
  apply (scan_rel_ind re_fence
           (fun s out => includes out (lit "```") = false
                         /\ leading_ticks out <= leading_ticks s)).
  - now split.
  - intros x t rep len Hm [IHi IHl]. unfold re_fence, re_remove in Hm.
    rewrite fence_matches_ticks in Hm.
    destruct (3 <=? leading_ticks (x :: t))%nat eqn:H3; [| discriminate].
    injection Hm as <- <-. cbn [length pred app] in *.
    split; [exact IHi |]. apply Nat.leb_le in H3.
    etransitivity; [exact IHl |].
    destruct t as [| a [| b t]]; cbn [skipn leading_ticks];
      try apply Nat.le_0_l.
    cbn [leading_ticks] in H3.
    destruct (x =? c_tick)%N, (a =? c_tick)%N, (b =? c_tick)%N; lia.
  - intros x t Hm [IHi IHl]. unfold re_fence, re_remove in Hm.
    rewrite fence_matches_ticks in Hm.
    destruct (3 <=? leading_ticks (x :: t))%nat eqn:H3; [discriminate |].
    apply Nat.leb_gt in H3.
    assert (Hlead : leading_ticks (x :: scan re_fence 0 t) <= leading_ticks (x :: t)).
    { cbn [leading_ticks]. destruct (x =? c_tick)%N; lia. }
    split; [| exact Hlead].
    cbn [includes]. rewrite IHi, orb_false_r, starts_fence_ticks.
    apply Nat.leb_gt. lia.
Qed.

Lemma span_all (p : N -> bool) (s : jsstring) : Forall (fun c => p c = true) (span p s).
Proof.
  induction s as [| c s IH]; [constructor |].
  cbn [span]. destruct (p c) eqn:Hc; [now constructor | constructor].
Qed.

(** What the trailing-comma pattern writes back holds no backquote. *)
Lemma re_trailing_comma_writes_plain (x : N) (s rep : jsstring) (len : nat) :
  re_trailing_comma (x :: s) = Some (rep, len) ->
  rep <> [] /\ Forall (fun c => c <> c_tick) rep.
Proof.
  unfold re_trailing_comma. destruct (x =? c_comma)%N; [| discriminate].
  pose proof (span_all is_space s) as Hws.
  destruct (skipn (length (span is_space s)) s) as [| d rest]; [discriminate |].
  destruct ((d =? c_rbrack)%N || (d =? c_rbrace)%N) eqn:Hd; [| discriminate].
  intros [= <- _]. split; [now destruct (span is_space s) |].
  apply Forall_app. split.
  - eapply Forall_impl; [| exact Hws]. intros c Hc ->. discriminate.
  - constructor; [| constructor]. intros ->. discriminate.
Qed.

(** The pass that removes trailing commas makes no fence. *)
Lemma strip_commas_makes_no_fence (s : jsstring) :
  includes s (lit "```") = false ->
  includes (replaceAll re_trailing_comma s) (lit "```") = false.
Proof.
  unfold replaceAll.
  enough (H : (includes s (lit "```") = false ->
               includes (scan re_trailing_comma 0 s) (lit "```") = false)
              /\ leading_ticks (scan re_trailing_comma 0 s) <= leading_ticks s)
    by exact (proj1 H).
  apply (scan_rel_ind re_trailing_comma
           (fun s out => (includes s (lit "```") = false ->
                          includes out (lit "```") = false)
                         /\ leading_ticks out <= leading_ticks s)).
  - now split.
  - intros x t rep len Hm [IHi IHl].
    destruct (re_trailing_comma_writes_plain x t rep len Hm) as [Hne Hplain].
    assert (Hfree : includes (x :: t) (lit "```") = false ->
                    includes (rep ++ scan re_trailing_comma 0 (skipn (pred len) t))
                             (lit "```") = false
                    /\ leading_ticks (rep ++ scan re_trailing_comma 0 (skipn (pred len) t))
                       <= leading_ticks (scan re_trailing_comma 0 (skipn (pred len) t))).
    { intros Hs. apply includes_fence_plain; [exact Hplain | | now left].
      apply IHi. apply (includes_skipn _ (S (pred len)) (x :: t) Hs). }
    split; [intros Hs; exact (proj1 (Hfree Hs)) |].
    destruct rep as [| c rep]; [congruence |].
    inversion Hplain as [| ? ? Hc _]; subst.
    cbn [app leading_ticks]. apply N.eqb_neq in Hc. rewrite Hc. apply Nat.le_0_l.
  - intros x t Hm [IHi IHl].
    assert (Hlead : leading_ticks (x :: scan re_trailing_comma 0 t)
                    <= leading_ticks (x :: t)).
    { cbn [leading_ticks]. destruct (x =? c_tick)%N; lia. }
    split; [| exact Hlead].
    intros Hs. cbn [includes] in Hs |- *. apply orb_false_iff in Hs.
    destruct Hs as [Hhere Hrest].
    rewrite (IHi Hrest), orb_false_r.
    rewrite starts_fence_ticks in Hhere |- *.
    apply Nat.leb_gt in Hhere. apply Nat.leb_gt. lia.
Qed.

(** X3. Whatever the text, the result of [cleanJson] holds no code fence
    (three backquotes in a row) and neither starts nor ends with white
    space. *)
Theorem cleanJson_no_fence_trimmed (text : jsstring) :
  includes (cleanJson text) (lit "```") = false
  /\ starts_clean (cleanJson text)
  /\ ends_clean (cleanJson text).
Proof.
  destruct text as [| x t]; [repeat split |].
  rewrite cleanJson_cons. cbv zeta.
  set (clean := replaceAll re_fence (replaceAll re_fence_json (x :: t))).
  match goal with
  | |- context [trim (replaceAll re_trailing_comma ?c)] => set (cut := c)
  end.
  split; [| split; [apply trim_starts_clean | apply trim_ends_clean]].
  assert (Hclean : includes clean (lit "```") = false)
    by apply strip_fence_leaves_none.
  assert (Hcut : includes cut (lit "```") = false).
  { subst cut. destruct (_ && _); [| exact Hclean].
    unfold substring. now apply includes_firstn, includes_skipn. }
  apply strip_commas_makes_no_fence in Hcut.
  destruct (trim_split (replaceAll re_trailing_comma cut)) as (l & r & Hs & _).
  rewrite Hs in Hcut.
  apply includes_app_r in Hcut. exact (includes_app_l_false _ _ _ Hcut).
Qed.

(** ** Voice synthesizer: recovery and bounds *)

Lemma tts_attempt_success
      (w : World) (ct : jsstring) (v : VoiceOption) (a : Z) (data : jsstring) :
  tts_reply w a = Answers (Some data) ->
  data <> [] ->
  decode_error w data = None ->
  result (tts_attempt w ct v a)
  = Return ({| encoded := data; sampleRate := 24000; channels := 1 |}, data).
Proof.
  intros Hreply Hdata Hdecode. unfold tts_attempt, request, bind.
  rewrite Hreply. destruct data as [| c data]; [congruence |].
  cbn. now rewrite Hdecode.
Qed.

Lemma tts_loop_step
      (w : World) (ct : jsstring) (v : VoiceOption) (a : Z) (rest : list Z)
      (last : option error) :
  (exists x, result (tts_attempt w ct v a) = Return x
             /\ tts_loop w ct v (a :: rest) last = ([TtsRequest ct v], Return (inl x)))
  \/ (exists e, result (tts_attempt w ct v a) = Throw e).
Proof.
  pose proof (tts_attempt_trace w ct v a) as Htrace. cbn [tts_loop].
  destruct (tts_attempt w ct v a) as [t [x | e]]; cbn [trace fst] in Htrace; subst t.
  - left. exists x. split; reflexivity.
  - right. now exists e.
Qed.

(** After attempts that all fail, an attempt that succeeds ends the loop
    with its value; each failed attempt is followed by its wait. *)
Lemma tts_loop_throws_then_success
      (w : World) (ct : jsstring) (v : VoiceOption)
      (before : list Z) (a : Z) (rest : list Z) (x : AudioBuffer * jsstring) :
  (forall j, In j before -> exists e, result (tts_attempt w ct v j) = Throw e) ->
  result (tts_attempt w ct v a) = Return x ->
  forall last,
    tts_loop w ct v (before ++ a :: rest) last
    = (flat_map (fun j => [TtsRequest ct v; Sleep (2000 * (j + 1))]) before
       ++ [TtsRequest ct v],
       Return (inl x)).
Proof.
  intros Hthrow Hok. induction before as [| b before IH]; intros last.
  - cbn [app flat_map].
    destruct (tts_loop_step w ct v a rest last) as [(y & Hy & Hrun) | (e & He)];
      congruence.
  - destruct (Hthrow b (or_introl eq_refl)) as [e He].
    cbn [app flat_map].
    rewrite (tts_loop_failed_attempt w ct v b _ last e He).
    rewrite IH by (intros j Hj; apply Hthrow; now right).
    reflexivity.
Qed.

(** X4. When the attempts before the [k]-th fail ([k] < 3, counted from 0)
    and the [k]-th delivers a non-empty audio payload that decodes,
    [generateVoiceover] returns that payload with its buffer at 24000 Hz,
    one channel; it has sent [k + 1] requests, each failed one followed by
    its wait of 2000 ms times its rank, and none after the success. *)
Theorem generateVoiceover_recovers
        (w : World) (text : jsstring) (voice : VoiceOption) (k : Z) (data : jsstring) :
  (0 <= k < 3)%Z ->
  cleanScriptForTTS text <> [] ->
  (forall j, (0 <= j < k)%Z ->
             exists e, result (tts_attempt w (cleanScriptForTTS text) voice j) = Throw e) ->
  tts_reply w k = Answers (Some data) ->
  data <> [] ->
  decode_error w data = None ->
  generateVoiceover w text voice
  = (flat_map (fun j => [TtsRequest (cleanScriptForTTS text) voice; Sleep (2000 * (j + 1))])
              (counting 0 (Z.to_nat k))
     ++ [TtsRequest (cleanScriptForTTS text) voice],
     Return ({| encoded := data; sampleRate := 24000; channels := 1 |}, data)).
Proof.
  intros Hk Hne Hbefore Hreply Hdata Hdecode.
  pose proof (tts_attempt_success w (cleanScriptForTTS text) voice k data
                Hreply Hdata Hdecode) as Hok.
  unfold generateVoiceover.
  destruct (cleanScriptForTTS text) as [| c ct] eqn:Hct; [congruence |].
  cbn [truthy_string negb].
  assert (Hsplit : exists rest,
             counting 0 3 = counting 0 (Z.to_nat k) ++ k :: rest
             /\ forall j, In j (counting 0 (Z.to_nat k)) -> (0 <= j < k)%Z).
  { assert (Hcase : k = 0%Z \/ k = 1%Z \/ k = 2%Z) by lia.
    destruct Hcase as [-> | [-> | ->]].
    - exists [1; 2]%Z. split; [reflexivity |]. intros j Hj. cbv in Hj. lia.
    - exists [2]%Z. split; [reflexivity |]. intros j Hj. cbv in Hj. lia.
    - exists []. split; [reflexivity |]. intros j Hj. cbv in Hj. lia. }
  destruct Hsplit as (rest & -> & Hin).
  rewrite (tts_loop_throws_then_success w (c :: ct) voice _ k rest _
             (fun j Hj => Hbefore j (Hin j Hj)) Hok None).
  unfold bind, ret. cbn [app]. now rewrite app_nil_r.
Qed.

Lemma generateVoiceover_recovers_witness :
  generateVoiceover recovering_world (lit "Ship it *today*") PUCK
  = ([ TtsRequest (lit "Ship it today") PUCK; Sleep 2000;
       TtsRequest (lit "Ship it today") PUCK ],
     Return ({| encoded := lit "UklGRg=="; sampleRate := 24000; channels := 1 |},
             lit "UklGRg==")).
Proof.
  apply (generateVoiceover_recovers recovering_world (lit "Ship it *today*") PUCK
           1%Z (lit "UklGRg==")).
  - lia.
  - discriminate.
  - intros j Hj. assert (j = 0%Z) as -> by lia. now exists unavailable.
  - reflexivity.
  - discriminate.
  - reflexivity.
Defined.

Lemma tts_loop_bounds
      (w : World) (ct : jsstring) (v : VoiceOption) (l : list Z) :
  forall last,
    Forall (fun ev => ev = TtsRequest ct v \/ exists ms, ev = Sleep ms)
           (trace (tts_loop w ct v l last))
    /\ (length (filter is_tts_request (trace (tts_loop w ct v l last))) <= length l)%nat
    /\ exists n, sleeps (trace (tts_loop w ct v l last))
                 = firstn n (List.map (fun a => 2000 * (a + 1))%Z l).
Proof.
  induction l as [| a l IH]; intros last.
  - repeat split; [constructor | apply Nat.le_refl | now exists 0%nat].
  - destruct (tts_loop_step w ct v a l last) as [(x & _ & Hrun) | (e & He)].
    + rewrite Hrun. cbn [trace fst]. repeat split.
      * constructor; [now left | constructor].
      * cbn. lia.
      * now exists 0%nat.
    + rewrite (tts_loop_failed_attempt w ct v a l last e He). cbn [trace fst].
      destruct (IH (Some e)) as (Hall & Hcount & n & Hsleeps).
      repeat split.
      * constructor; [now left |]. constructor; [right; now eexists | exact Hall].
      * cbn [filter is_tts_request length]. lia.
      * exists (S n). cbn [sleeps flat_map app List.map firstn].
        fold (sleeps (trace (tts_loop w ct v l (Some e)))). now rewrite Hsleeps.
Qed.

(** X5. In every run [generateVoiceover] sends at most three requests, all
    of them to the TTS model with the cleaned text and the chosen voice, and
    contacts no other provider; the waits are the first ones of 2000, 4000,
    6000 ms. *)
Theorem generateVoiceover_bounds (w : World) (text : jsstring) (voice : VoiceOption) :
  Forall (fun ev => ev = TtsRequest (cleanScriptForTTS text) voice
                    \/ exists ms, ev = Sleep ms)
         (trace (generateVoiceover w text voice))
  /\ (length (filter is_tts_request (trace (generateVoiceover w text voice))) <= 3)%nat
  /\ exists n, sleeps (trace (generateVoiceover w text voice))
               = firstn n [2000; 4000; 6000]%Z.
Proof.
  unfold generateVoiceover.
  destruct (truthy_string (cleanScriptForTTS text)); cbn [negb];
    [| repeat split; [constructor | cbn; lia | now exists 0%nat]].
  destruct (tts_loop_bounds w (cleanScriptForTTS text) voice (counting 0 3) None)
    as (Hall & Hcount & n & Hsleeps).
  assert (Htrace : trace (bind (tts_loop w (cleanScriptForTTS text) voice (counting 0 3) None)
                     (fun r => match r with
                               | inl x => ret x
                               | inr lastError =>
                                   throw (Error (Some
                                     (lit "Failed to generate audio after 3 attempts. "
                                      ++ string_or (match lastError with
                                                    | Some e => message e
                                                    | None => None
                                                    end) [])))
                               end))
                   = trace (tts_loop w (cleanScriptForTTS text) voice (counting 0 3) None)).
  { rewrite trace_bind.
    destruct (result (tts_loop w (cleanScriptForTTS text) voice (counting 0 3) None))
      as [[x | lastError] | e]; cbn; apply app_nil_r. }
  rewrite Htrace. repeat split; [exact Hall | exact Hcount |].
  exists n. exact Hsleeps.
Qed.

(** ** Visual planner: the request *)

Lemma sample_frames_run (w : World) (videoFrames : list VideoFrame) :
  (1 <= length videoFrames)%nat ->
  sample_frames w videoFrames
  = Some (parts_at w videoFrames
            (stride_indices (length videoFrames)
               (ceil_div (length videoFrames) MAX_CONTEXT_FRAMES))).
Proof.
  intros Hn. destruct (ceil_div_five (length videoFrames) Hn) as [Hs Hcap].
  set (s := ceil_div (length videoFrames) MAX_CONTEXT_FRAMES) in *.
  assert (Hkn : (ceil_div (length videoFrames) s <= length videoFrames)%nat)
    by (apply ceil_div_le; [assumption | nia]).
  unfold sample_frames. fold s. change 0%nat with (0 * s)%nat at 1.
  rewrite (frame_loop_from w videoFrames s Hs Hcap (S (length videoFrames)) 0 []);
    [| lia | reflexivity | lia].
  now rewrite Nat.sub_0_r.
Qed.

Lemma parts_at_frames (w : World) (videoFrames : list VideoFrame) (indices : list nat) :
  Forall (fun i => i < length videoFrames)%nat indices ->
  exists selected,
    parts_at w videoFrames indices = flat_map (frame_parts w) selected
    /\ length selected = length indices
    /\ incl selected videoFrames.
Proof.
  induction 1 as [| i indices Hi _ IH]; [exists []; repeat split; intros x [] |].
  destruct IH as (selected & Hparts & Hlen & Hincl).
  destruct (nth_error videoFrames i) as [f |] eqn:Hnth;
    [| apply nth_error_None in Hnth; lia].
  exists (f :: selected). cbn [parts_at flat_map length]. rewrite Hnth.
  fold (parts_at w videoFrames indices). rewrite Hparts, Hlen.
  repeat split. intros x [<- | Hx]; [exact (nth_error_In _ _ Hnth) | exact (Hincl x Hx)].
Qed.

Lemma generateVisualPlan_trace
      (w : World) (script : jsstring) (files : list ProjectFile)
      (videoFrames : option (list VideoFrame)) :
  trace (generateVisualPlan w script files videoFrames)
  = [ PlanRequest
        (match videoFrames with
         | Some frames =>
             if (0 <? length frames)%nat
             then match sample_frames w frames with Some parts => parts | None => [] end
             else []
         | None => []
         end
         ++ [Text (plan_prompt script (file_context files)
                     match videoFrames with
                     | Some frames => if (0 <? length frames)%nat then frame_context else []
                     | None => []
                     end)]) ].
Proof.
  unfold generateVisualPlan.
  destruct videoFrames as [frames |]; [destruct (0 <? length frames)%nat |];
    unfold request, bind, try_catch;
    (destruct (plan_reply w) as [response | err]; cbv beta iota;
     [destruct (JSON_parse w _) |]; reflexivity).
Qed.

(** X6. In every case [generateVisualPlan] sends exactly one request.  Its
    parts are the image and the timestamp label of at most five of the given
    frames, followed by one text part, the prompt, which comes last; the note
    about uploaded frames is in the prompt only when frames were given.
    Without frames the request holds the prompt alone. *)
Theorem generateVisualPlan_single_request
        (w : World) (script : jsstring) (files : list ProjectFile)
        (videoFrames : option (list VideoFrame)) :
  exists selected,
    trace (generateVisualPlan w script files videoFrames)
    = [ PlanRequest
          (flat_map (frame_parts w) selected
           ++ [Text (plan_prompt script (file_context files)
                       (if match selected with [] => true | _ => false end
                        then [] else frame_context))]) ]
    /\ (length selected <= 5)%nat
    /\ incl selected (match videoFrames with Some frames => frames | None => [] end)
    /\ (selected = [] <->
        match videoFrames with Some frames => frames = [] | None => True end).
Proof.
  rewrite generateVisualPlan_trace.
  destruct videoFrames as [[| f frames] |].
  - exists []. repeat split; try (intros x []); cbn; lia.
  - set (all := f :: frames).
    assert (Hn : (1 <= length all)%nat) by (cbn; lia).
    change (0 <? length all)%nat with true. cbv iota.
    rewrite (sample_frames_run w all Hn).
    destruct (ceil_div_five (length all) Hn) as [Hs Hcap].
    set (s := ceil_div (length all) MAX_CONTEXT_FRAMES) in *.
    destruct (parts_at_frames w all (stride_indices (length all) s)
                (stride_indices_below (length all) s Hs))
      as (selected & Hparts & Hlen & Hincl).
    assert (Hcount : length (stride_indices (length all) s)
                     = ceil_div (length all) s)
      by (unfold stride_indices; now rewrite length_map, length_seq).
    assert (Hpos : (1 <= ceil_div (length all) s)%nat).
    { apply (below_ceil_div (length all) s Hs 0). cbn. lia. }
    exists selected. rewrite Hparts.
    destruct selected as [| g selected]; [cbn [length] in Hlen; lia |].
    repeat split.
    + rewrite Hlen, Hcount. now apply ceil_div_le.
    + exact Hincl.
    + discriminate.
    + discriminate.
  - exists []. repeat split; try (intros x []); cbn; lia.
Qed.

Lemma file_context_truncated (files : list ProjectFile) :
  file_context (List.map (truncated 1000) files) = file_context files.
Proof.
  unfold file_context. rewrite map_map. do 2 f_equal.
  apply map_ext. intros f. cbn [truncated name content].
  now rewrite firstn_firstn, Nat.min_id.
Qed.

(** X7. Of each file only the first 1000 characters of the content reach
    the planning model, and the code context is at most 5000 characters long:
    the run is the same when every content is cut after 1000 characters. *)
Theorem generateVisualPlan_context_bounded
        (w : World) (script : jsstring) (files : list ProjectFile)
        (videoFrames : option (list VideoFrame)) :
  generateVisualPlan w script (List.map (truncated 1000) files) videoFrames
  = generateVisualPlan w script files videoFrames
  /\ (length (file_context files) <= 5000)%nat.
Proof.
  split.
  - unfold generateVisualPlan. now rewrite file_context_truncated.
  - unfold file_context. apply firstn_le_length.
Qed.

(** ** Primary image provider: recovery and waits *)

Lemma flux_attempt_success
      (w : World) (p : jsstring) (wd ht a : Z)
      (info : option (jsstring + option jsstring)) (url : jsstring)
      (data : option jsstring) :
  connect_error w a = None ->
  predict_reply w a = Answers info ->
  image_url info = Some url ->
  url <> [] ->
  download_reply w url = Answers data ->
  flux_attempt w p wd ht a
  = ([Connect; Predict (enhanced p) wd ht; Fetch url], Return data).
Proof.
  intros Hc Hp Hu Hne Hd. unfold flux_attempt, request, bind.
  rewrite Hc, Hp. cbn. rewrite Hu.
  destruct url as [| c url]; [congruence |].
  cbn. now rewrite Hd.
Qed.

Lemma flux_loop_returned
      (w : World) (p : jsstring) (wd ht a : Z) (rest : list Z)
      (t : list event) (x : option jsstring) :
  flux_attempt w p wd ht a = (t, Return x) ->
  flux_loop w p wd ht (a :: rest) = (t, Return x).
Proof.
  intros Hrun. cbn [flux_loop]. rewrite Hrun. cbn. now rewrite !app_nil_r.
Qed.

(** Attempts that all throw come before whatever the remaining attempts do,
    each with its wait, except the one numbered [MAX_RETRIES]. *)
Lemma flux_loop_after_throws
      (w : World) (p : jsstring) (wd ht : Z) (before l : list Z) :
  (forall j, In j before -> exists e, result (flux_attempt w p wd ht j) = Throw e) ->
  exists t,
    flux_loop w p wd ht (before ++ l) = (t ++ trace (flux_loop w p wd ht l),
                                         result (flux_loop w p wd ht l))
    /\ attempts t = length before
    /\ sleeps t = flat_map (fun a => if (a =? MAX_RETRIES)%Z then [] else [flux_delay a])
                           before.
Proof.
  intros Hthrow. induction before as [| b before IH].
  - exists []. cbn [app]. repeat split. now destruct (flux_loop w p wd ht l).
  - destruct (Hthrow b (or_introl eq_refl)) as [e He].
    destruct IH as (t & Hrun & Ha & Hs); [intros j Hj; apply Hthrow; now right |].
    exists (trace (flux_attempt w p wd ht b)
            ++ (if (b =? MAX_RETRIES)%Z then [] else [Sleep (flux_delay b)]) ++ t).
    cbn [app]. rewrite (flux_loop_thrown w p wd ht b _ e He), Hrun.
    cbn [trace fst result snd]. repeat split.
    + now rewrite <- !app_assoc.
    + rewrite !attempts_app, flux_attempt_counts_once, Ha.
      destruct (b =? MAX_RETRIES)%Z; reflexivity.
    + rewrite !sleeps_app, flux_attempt_no_sleep, Hs. cbn [flat_map app].
      destruct (b =? MAX_RETRIES)%Z; reflexivity.
Qed.

(** X8. When the attempts before the [k]-th throw (connection, prediction
    or download) and the [k]-th delivers a non-empty image URL, as a string or
    as the [url] of an object, whose download succeeds, [generateWithFlux]
    returns the downloaded data after exactly [k] attempts and makes no
    further one; it has waited 3000 ms after a failed first and 4500 ms
    after a failed second attempt. *)
Theorem generateWithFlux_recovers
        (w : World) (p : jsstring) (wd ht k : Z)
        (info : option (jsstring + option jsstring)) (url : jsstring)
        (data : option jsstring) :
  (1 <= k <= 3)%Z ->
  (forall j, (1 <= j < k)%Z -> exists e, result (flux_attempt w p wd ht j) = Throw e) ->
  connect_error w k = None ->
  predict_reply w k = Answers info ->
  image_url info = Some url ->
  url <> [] ->
  download_reply w url = Answers data ->
  result (generateWithFlux w p wd ht) = Return data
  /\ attempts (trace (generateWithFlux w p wd ht)) = Z.to_nat k
  /\ sleeps (trace (generateWithFlux w p wd ht))
     = firstn (pred (Z.to_nat k)) [3000; 4500]%Z
  /\ exists t, trace (generateWithFlux w p wd ht)
               = t ++ [Connect; Predict (enhanced p) wd ht; Fetch url].
Proof.
  intros Hk Hbefore Hc Hp Hu Hne Hd.
  pose proof (flux_attempt_success w p wd ht k info url data Hc Hp Hu Hne Hd) as Hok.
  rewrite generateWithFlux_unfold.
  assert (Hsplit : exists before rest,
             [1; 2; 3]%Z = before ++ k :: rest
             /\ length before = pred (Z.to_nat k)
             /\ flat_map (fun a => if (a =? MAX_RETRIES)%Z then [] else [flux_delay a]) before
                = firstn (pred (Z.to_nat k)) [3000; 4500]%Z
             /\ forall j, In j before -> (1 <= j < k)%Z).
  { assert (Hcase : k = 1%Z \/ k = 2%Z \/ k = 3%Z) by lia.
    destruct Hcase as [-> | [-> | ->]].
    - exists [], [2; 3]%Z.
      split; [reflexivity | split; [reflexivity | split; [reflexivity |]]].
      intros j Hj. cbv in Hj. lia.
    - exists [1]%Z, [3]%Z.
      split; [reflexivity | split; [reflexivity | split; [reflexivity |]]].
      intros j Hj. cbv in Hj. lia.
    - exists [1; 2]%Z, [].
      split; [reflexivity | split; [reflexivity | split; [reflexivity |]]].
      intros j Hj. cbv in Hj. lia. }
  destruct Hsplit as (before & rest & -> & Hlen & Hdelays & Hin).
  destruct (flux_loop_after_throws w p wd ht before (k :: rest)) as (t & Hrun & Ha & Hs);
    [intros j Hj; apply Hbefore, Hin, Hj |].
  rewrite Hrun, (flux_loop_returned w p wd ht k rest _ _ Hok).
  cbn [trace fst result snd]. repeat split.
  - rewrite attempts_app, Ha, Hlen. cbn. lia.
  - rewrite sleeps_app, Hs, Hdelays. cbn. apply app_nil_r.
  - now exists t.
Qed.

Lemma generateWithFlux_recovers_witness :
  result (generateWithFlux recovering_world (lit "Neon dashboard") 1024 768)
  = Return (Some (lit "aGVsbG8="))
  /\ attempts (trace (generateWithFlux recovering_world (lit "Neon dashboard") 1024 768))
     = 2%nat.
Proof.
  destruct (generateWithFlux_recovers recovering_world (lit "Neon dashboard") 1024 768 2
              (Some (inr (Some (lit "https://space.example/image.png"))))
              (lit "https://space.example/image.png") (Some (lit "aGVsbG8=")))
    as (Hr & Ha & _).
  - lia.
  - intros j Hj. assert (j = 1%Z) as -> by lia. now exists unavailable.
  - reflexivity.
  - reflexivity.
  - reflexivity.
  - discriminate.
  - reflexivity.
  - split; [exact Hr | exact Ha].
Defined.

Lemma flux_loop_waits (w : World) (p : jsstring) (wd ht : Z) (l : list Z) :
  exists n,
    sleeps (trace (flux_loop w p wd ht l))
    = firstn n (flat_map (fun a => if (a =? MAX_RETRIES)%Z then [] else [flux_delay a]) l).
Proof.
  induction l as [| a l IH]; [now exists 0%nat |].
  destruct (flux_loop_step w p wd ht a l) as [[x Hx] | [e He]].
  - exists 0%nat. rewrite Hx. cbn [trace fst]. apply flux_attempt_no_sleep.
  - destruct IH as [n Hn].
    rewrite (flux_loop_thrown w p wd ht a l e He). cbn [trace fst].
    rewrite !sleeps_app, flux_attempt_no_sleep, Hn. cbn [flat_map app].
    destruct (a =? MAX_RETRIES)%Z; [now exists n | now exists (S n)].
Qed.

(** X9. [generateWithFlux] never throws, whatever the space does, and never
    waits after its last attempt: the waits of a run are the first ones of
    3000 and 4500 ms, hence at most 7500 ms in all. *)
Theorem generateWithFlux_waits (w : World) (p : jsstring) (wd ht : Z) :
  (exists r, result (generateWithFlux w p wd ht) = Return r)
  /\ (exists n, sleeps (trace (generateWithFlux w p wd ht)) = firstn n [3000; 4500]%Z)
  /\ (fold_right Z.add 0 (sleeps (trace (generateWithFlux w p wd ht))) <= 7500)%Z.
Proof.
  rewrite generateWithFlux_unfold.
  destruct (flux_loop_waits w p wd ht [1; 2; 3]%Z) as [n Hn].
  change (flat_map _ [1; 2; 3]%Z) with [3000; 4500]%Z in Hn.
  split; [apply flux_loop_returns |].
  split; [now exists n |].
  rewrite Hn. destruct n as [| [| [| n]]]; cbn; lia.
Qed.

(** ** Fallback provider and the two tiers of [generateAsset] *)

Lemma find_after_rejected {A} (f : A -> bool) (before : list A) (x : A) (after : list A) :
  Forall (fun y => f y = false) before ->
  find f (before ++ x :: after) = if f x then Some x else find f after.
Proof.
  induction 1 as [| y before Hy _ IH]; [reflexivity |].
  cbn [app find]. now rewrite Hy.
Qed.

Lemma find_first {A} (f : A -> bool) (l : list A) (x : A) :
  find f l = Some x ->
  exists before after,
    l = before ++ x :: after /\ f x = true /\ Forall (fun y => f y = false) before.
Proof.
  induction l as [| y l IH]; [discriminate |].
  cbn [find]. destruct (f y) eqn:Hy.
  - intros [= ->]. exists [], l. repeat split; [exact Hy | constructor].
  - intros Hfind. destruct (IH Hfind) as (before & after & -> & Hx & Hbefore).
    exists (y :: before), after. repeat split; [exact Hx | now constructor].
Qed.

(** X10. [generateWithGemini] sends one request, with the aspect ratio of
    the platform, and never throws.  It returns the inline data of the first
    part that has non-empty data; it returns [null] in every other case: the
    request fails, the response has no parts, or no part has data. *)
Theorem generateWithGemini_result (w : World) (p : jsstring) (platform : Platform) :
  exists r,
    generateWithGemini w p platform = ([ImageRequest p (spec_aspect platform)], Return r)
    /\ forall d,
         r = Some d <->
         (d <> []
          /\ exists before after,
               image_reply w = Answers (Some (before ++ Some d :: after))
               /\ Forall (fun x => truthy x = false) before).
Proof.
  destruct (generateWithGemini_run w p platform) as [r Hrun].
  exists r. split; [exact Hrun |].
  assert (Hr : r = match image_reply w with
                   | Answers (Some ps) => match find truthy ps with
                                          | Some data => data
                                          | None => None
                                          end
                   | _ => None
                   end).
  { assert (Hres : result (generateWithGemini w p platform) = Return r)
      by now rewrite Hrun.
    revert Hres. unfold generateWithGemini, request, bind, try_catch.
    destruct (image_reply w) as [[ps |] | e]; cbn; now intros [= <-]. }
  intros d. split.
  - intros ->. destruct (image_reply w) as [[ps |] | e]; try discriminate.
    destruct (find truthy ps) as [x |] eqn:Hfind; [| discriminate].
    subst x. destruct (find_first truthy ps (Some d) Hfind)
      as (before & after & -> & Hd & Hbefore).
    split; [now destruct d | now exists before, after].
  - intros (Hd & before & after & Hreply & Hbefore). rewrite Hr, Hreply.
    rewrite (find_after_rejected truthy before (Some d) after Hbefore).
    now destruct d.
Qed.

Lemma flux_loop_asks_space_only (w : World) (p : jsstring) (wd ht : Z) (l : list Z) :
  Forall (fun ev => forall q a, ev <> ImageRequest q a) (trace (flux_loop w p wd ht l)).
Proof.
  assert (Hattempt : forall a, Forall (fun ev => forall q r, ev <> ImageRequest q r)
                                      (trace (flux_attempt w p wd ht a))).
  { intros a. rewrite flux_attempt_trace.
    destruct (connect_error w a); [repeat constructor; discriminate |].
    destruct (predict_reply w a) as [info | e];
      [destruct (truthy (image_url info)) |]; repeat constructor; discriminate. }
  induction l as [| a l IH]; [constructor |].
  destruct (flux_loop_step w p wd ht a l) as [[x Hx] | [e He]].
  - rewrite Hx. apply Hattempt.
  - rewrite (flux_loop_thrown w p wd ht a l e He). cbn [trace fst].
    apply Forall_app. split; [apply Hattempt |].
    apply Forall_app. split; [| exact IH].
    destruct (a =? MAX_RETRIES)%Z; repeat constructor; discriminate.
Qed.

(** The run of [generateAsset] on an IMAGE item, by what the providers give. *)
Lemma generateAsset_image_cases (w : World) (item : VisualPlanItem) (platform : Platform) :
  type item = IMAGE ->
  exists f g,
    result (generateWithFlux w (string_or (imagePrompt item) (description item))
                             (fst (spec_dimensions platform))
                             (snd (spec_dimensions platform))) = Return f
    /\ result (generateWithGemini w (string_or (imagePrompt item) (description item))
                                  platform) = Return g
    /\ generateAsset w item platform
       = if truthy f
         then (trace (generateWithFlux w (string_or (imagePrompt item) (description item))
                                       (fst (spec_dimensions platform))
                                       (snd (spec_dimensions platform))),
               Return (Some (image_asset item f)))
         else (trace (generateWithFlux w (string_or (imagePrompt item) (description item))
                                       (fst (spec_dimensions platform))
                                       (snd (spec_dimensions platform)))
               ++ [ImageRequest (string_or (imagePrompt item) (description item))
                                (spec_aspect platform)],
               Return (if truthy g then Some (image_asset item g) else None)).
Proof.
  intros Htype.
  set (p := string_or (imagePrompt item) (description item)).
  destruct (flux_loop_returns w p (fst (spec_dimensions platform))
              (snd (spec_dimensions platform)) [1; 2; 3]%Z) as [f Hf].
  destruct (generateWithGemini_run w p platform) as [g Hg].
  exists f, g. rewrite generateWithFlux_unfold. split; [exact Hf |].
  split; [now rewrite Hg |].
  unfold generateAsset. rewrite Htype. fold p.
  replace (if Platform_eqb platform TIKTOK || Platform_eqb platform INSTAGRAM
           then 768%Z else 1024%Z)
    with (fst (spec_dimensions platform)) by now destruct platform.
  replace (if Platform_eqb platform TIKTOK || Platform_eqb platform INSTAGRAM
           then 1024%Z else 768%Z)
    with (snd (spec_dimensions platform)) by now destruct platform.
  rewrite generateWithFlux_unfold.
  destruct (flux_loop w p (fst (spec_dimensions platform))
              (snd (spec_dimensions platform)) [1; 2; 3]%Z) as [tf rf].
  cbn [result snd] in Hf. subst rf. cbn [trace fst bind].
  destruct (truthy f).
  - cbn. now rewrite app_nil_r.
  - rewrite Hg. cbn [bind]. destruct (truthy g); cbn; now rewrite ?app_nil_r.
Qed.

(** X11. The two tiers of [generateAsset] on an IMAGE item.  When the
    primary provider returns non-empty data, the asset carries it and the
    fallback provider is not contacted.  Otherwise the fallback provider is
    asked exactly once, after the attempts on the primary one, and the result
    is the asset with its data, or [null] when it has none either.  The
    prompt of both is the image prompt, or the description when the image
    prompt is absent or empty. *)
Theorem generateAsset_two_tiers (w : World) (item : VisualPlanItem) (platform : Platform) :
  type item = IMAGE ->
  exists f g,
    result (generateWithFlux w (string_or (imagePrompt item) (description item))
                             (fst (spec_dimensions platform))
                             (snd (spec_dimensions platform))) = Return f
    /\ result (generateWithGemini w (string_or (imagePrompt item) (description item))
                                  platform) = Return g
    /\ (truthy f = true ->
        result (generateAsset w item platform) = Return (Some (image_asset item f))
        /\ Forall (fun ev => forall q a, ev <> ImageRequest q a)
                  (trace (generateAsset w item platform)))
    /\ (truthy f = false ->
        result (generateAsset w item platform)
        = Return (if truthy g then Some (image_asset item g) else None)
        /\ trace (generateAsset w item platform)
           = trace (generateWithFlux w (string_or (imagePrompt item) (description item))
                                     (fst (spec_dimensions platform))
                                     (snd (spec_dimensions platform)))
             ++ [ImageRequest (string_or (imagePrompt item) (description item))
                              (spec_aspect platform)]).
Proof.
  intros Htype.
  destruct (generateAsset_image_cases w item platform Htype) as (f & g & Hf & Hg & Hrun).
  exists f, g. split; [exact Hf |]. split; [exact Hg |].
  split; intros Hcase; rewrite Hrun, Hcase; cbn [result snd trace fst].
  - split; [reflexivity |]. rewrite generateWithFlux_unfold.
    apply flux_loop_asks_space_only.
  - split; reflexivity.
Qed.

Lemma generateAsset_two_tiers_witness :
  exists f g,
    result (generateWithFlux recovering_world (lit "Neon dashboard") 768 1024) = Return f
    /\ result (generateWithGemini recovering_world (lit "Neon dashboard") INSTAGRAM)
       = Return g
    /\ truthy f = true
    /\ g = Some (lit "iVBORw0KGgo=").
Proof.
  destruct (generateAsset_two_tiers recovering_world
              {| type := IMAGE; description := lit "Intro";
                 imagePrompt := Some (lit "Neon dashboard");
                 videoStartTime := None; videoEndTime := None |}
              INSTAGRAM eq_refl) as (f & g & Hf & Hg & _).
  exists f, g. split; [exact Hf |]. split; [exact Hg |].
  vm_compute in Hf, Hg. injection Hf as <-. injection Hg as <-.
  split; reflexivity.
Defined.

(** X12. [generateAsset] never throws, for any plan item, platform and
    behaviour of the providers; it resolves to [null] exactly when the item
    is an IMAGE and neither provider returns non-empty data. *)
Theorem generateAsset_never_throws
        (w : World) (item : VisualPlanItem) (platform : Platform) :
  exists r,
    result (generateAsset w item platform) = Return r
    /\ (r = None <->
        type item = IMAGE
        /\ (exists f, result (generateWithFlux w
                                (string_or (imagePrompt item) (description item))
                                (fst (spec_dimensions platform))
                                (snd (spec_dimensions platform))) = Return f
                      /\ truthy f = false)
        /\ (exists g, result (generateWithGemini w
                                (string_or (imagePrompt item) (description item))
                                platform) = Return g
                      /\ truthy g = false)).
Proof.
  destruct (type item) eqn:Htype.
  - destruct (generateAsset_image_cases w item platform Htype) as (f & g & Hf & Hg & Hrun).
    rewrite Hrun. destruct (truthy f) eqn:Htf; cbn [result snd].
    + eexists. split; [reflexivity |]. split; [discriminate |].
      intros (_ & (f' & Hf' & Hfalse) & _). congruence.
    + destruct (truthy g) eqn:Htg; eexists; (split; [reflexivity |]).
      * split; [discriminate |].
        intros (_ & _ & (g' & Hg' & Hfalse)). congruence.
      * split; [| reflexivity]. intros _.
        split; [reflexivity |]. split; [now exists f | now exists g].
  - unfold generateAsset. rewrite Htype. eexists. split; [reflexivity |].
    split; [discriminate |]. intros (H & _). discriminate.
Qed.

(** ** Archive text extraction: order, provenance and size *)

Lemma readme_score_values (a : jsstring) :
  Zip.readme_score a = if is_readme a then (-1)%Z else 1%Z.
Proof. reflexivity. Qed.

Lemma insert_readme (a : jsstring) (l : list jsstring) :
  is_readme a = true ->
  Zip.insert (fun a b => Zip.readme_score a - Zip.readme_score b)%Z a l = a :: l.
Proof.
  intros Ha. destruct l as [| y l]; [reflexivity |].
  cbn [Zip.insert]. rewrite !readme_score_values, Ha.
  now destruct (is_readme y).
Qed.

Lemma insert_other (a : jsstring) (first rest : list jsstring) :
  is_readme a = false ->
  Forall (fun y => is_readme y = true) first ->
  Forall (fun y => is_readme y = false) rest ->
  Zip.insert (fun a b => Zip.readme_score a - Zip.readme_score b)%Z a (first ++ rest)
  = first ++ a :: rest.
Proof.
  intros Ha Hfirst Hrest. induction Hfirst as [| y first Hy _ IH].
  - cbn [app]. destruct Hrest as [| y rest Hy _]; [reflexivity |].
    cbn [Zip.insert]. now rewrite !readme_score_values, Ha, Hy.
  - cbn [app Zip.insert]. rewrite !readme_score_values, Ha, Hy. cbn. now rewrite IH.
Qed.

(** The sort of the entry names is a stable partition: the names with
    [readme] in them first, then the others, each group in its order. *)
Lemma sort_by_readme (entries : list jsstring) :
  Zip.sort (fun a b => Zip.readme_score a - Zip.readme_score b)%Z entries
  = filter is_readme entries ++ filter (fun a => negb (is_readme a)) entries.
Proof.
  induction entries as [| a entries IH]; [reflexivity |].
  unfold Zip.sort in *. cbn [fold_right filter]. rewrite IH.
  destruct (is_readme a) eqn:Ha; cbn [negb].
  - now apply insert_readme.
  - apply insert_other; [exact Ha | |]; apply Forall_forall; intros y Hy;
      apply filter_In in Hy; destruct Hy as [_ Hy];
      [exact Hy | now apply negb_true_iff].
Qed.

Lemma subseq_nil_l {A} (l : list A) : subseq [] l.
Proof. induction l; now constructor. Qed.

Lemma subseq_split {A} (a b : list A) :
  forall l, subseq l (a ++ b) ->
            exists la lb, l = la ++ lb /\ subseq la a /\ subseq lb b.
Proof.
  induction a as [| x a IH]; intros l H.
  - exists [], l. repeat split; [constructor | exact H].
  - cbn [app] in H. inversion H as [| ? ? ? Hsub | ? ? ? Hsub]; subst.
    + destruct (IH _ Hsub) as (la & lb & -> & Ha & Hb).
      exists la, lb. repeat split; [now constructor | exact Hb].
    + destruct (IH _ Hsub) as (la & lb & -> & Ha & Hb).
      exists (x :: la), lb. repeat split; [now constructor | exact Hb].
Qed.

Lemma subseq_Forall {A} (P : A -> Prop) (l1 l2 : list A) :
  subseq l1 l2 -> Forall P l2 -> Forall P l1.
Proof.
  induction 1 as [| x l1 l2 _ IH | x l1 l2 _ IH]; intros Hall;
    [constructor | |]; inversion Hall; subst; [now apply IH |].
  constructor; [assumption | now apply IH].
Qed.

(** What the loop adds: files of the archive, in the order of the entries. *)
Lemma extract_loop_added (contents : Zip.ZipFiles) (sortedEntries : list jsstring) :
  forall (files out : list ProjectFile) (totalSize : Z),
    Zip.extract_loop contents sortedEntries files totalSize = Return out ->
    exists added,
      out = files ++ added
      /\ subseq (List.map name added) sortedEntries
      /\ Forall (from_archive contents) added.
Proof.
  induction sortedEntries as [| filename rest IH]; intros files out totalSize Hrun;
    cbn [Zip.extract_loop] in Hrun.
  - injection Hrun as <-. exists []. rewrite app_nil_r. repeat constructor.
  - assert (Hstop : Return files = Return out ->
                    exists added, out = files ++ added
                                  /\ subseq (List.map name added) (filename :: rest)
                                  /\ Forall (from_archive contents) added).
    { intros [= <-]. exists []. rewrite app_nil_r.
      repeat split; [apply subseq_nil_l | constructor]. }
    assert (Hskip : Zip.extract_loop contents rest files totalSize = Return out ->
                    exists added, out = files ++ added
                                  /\ subseq (List.map name added) (filename :: rest)
                                  /\ Forall (from_archive contents) added).
    { intros H. destruct (IH _ _ _ H) as (added & -> & Hsub & Hall).
      exists added. repeat split; [now constructor | exact Hall]. }
    destruct (Zip.MAX_FILES <=? length files)%nat; [exact (Hstop Hrun) |].
    destruct (Zip.MAX_TOTAL_SIZE <=? totalSize)%Z; [exact (Hstop Hrun) |].
    destruct (Zip.lookup filename contents) as [fileEntry |] eqn:Hlookup; [| discriminate].
    destruct (Zip.dir fileEntry) eqn:Hdir; [exact (Hskip Hrun) |].
    destruct (Zip.isRelevant filename); cbn [negb] in Hrun; [| exact (Hskip Hrun)].
    destruct (includes (Zip.text fileEntry) [0%N]); [exact (Hskip Hrun) |].
    destruct (IH _ _ _ Hrun) as (added & -> & Hsub & Hall).
    exists ({| name := filename; content := Zip.text fileEntry |} :: added).
    rewrite <- app_assoc. repeat split.
    + cbn [List.map name]. now constructor.
    + constructor; [| exact Hall]. exists fileEntry. now repeat split.
Qed.

(** X14. Every file that [extractTextFromZip] returns is an entry of the
    archive that is not a directory, with its name and its text.  The files
    come in the order of the sorted entries: those with [readme] in their
    name (in any case) first, then the others, each group in the order of the
    archive. *)
Theorem extractTextFromZip_order
        (contents : Zip.ZipFiles) (out : list ProjectFile) :
  Zip.extractTextFromZip (Answers contents) = Return out ->
  Forall (from_archive contents) out
  /\ subseq (List.map name out)
            (filter is_readme (List.map fst contents)
             ++ filter (fun a => negb (is_readme a)) (List.map fst contents))
  /\ exists first rest,
       out = first ++ rest
       /\ Forall (fun f => is_readme (name f) = true) first
       /\ Forall (fun f => is_readme (name f) = false) rest.
Proof.
  unfold Zip.extractTextFromZip. rewrite sort_by_readme. intros Hrun.
  destruct (extract_loop_added _ _ _ _ _ Hrun) as (added & -> & Hsub & Hall).
  cbn [app] in *. split; [exact Hall |]. split; [exact Hsub |].
  destruct (subseq_split _ _ _ Hsub) as (la & lb & Hnames & Ha & Hb).
  apply map_eq_app in Hnames. destruct Hnames as (first & rest & -> & <- & <-).
  exists first, rest. split; [reflexivity |]. split.
  - apply (proj1 (Forall_map name (fun a => is_readme a = true) first)).
    apply (subseq_Forall _ _ _ Ha).
    apply Forall_forall. intros y Hy. now apply filter_In in Hy.
  - apply (proj1 (Forall_map name (fun a => is_readme a = false) rest)).
    apply (subseq_Forall _ _ _ Hb).
    apply Forall_forall. intros y Hy. apply filter_In in Hy.
    now apply negb_true_iff.
Qed.

Lemma extractTextFromZip_order_witness :
  Forall (from_archive sample_archive)
         [ {| name := lit "README.md"; content := lit "# Demo" |};
           {| name := lit "docs/readme.txt"; content := lit "Usage" |};
           {| name := lit "src/main.TS"; content := lit "export {}" |} ].
Proof.
  apply (extractTextFromZip_order sample_archive). reflexivity.
Defined.

Lemma total_size_app (a b : list ProjectFile) :
  Zip.total_size (a ++ b) = (Zip.total_size a + Zip.total_size b)%Z.
Proof.
  unfold Zip.total_size. induction a as [| f a IH]; [reflexivity |].
  cbn [app fold_right]. rewrite IH. lia.
Qed.

Lemma extract_loop_size (contents : Zip.ZipFiles) (sortedEntries : list jsstring) :
  forall (files out : list ProjectFile) (totalSize : Z),
    totalSize = Zip.total_size files ->
    (forall before last, files = before ++ [last] ->
                         (Zip.total_size before < Zip.MAX_TOTAL_SIZE)%Z) ->
    Zip.extract_loop contents sortedEntries files totalSize = Return out ->
    forall before last, out = before ++ [last] ->
                        (Zip.total_size before < Zip.MAX_TOTAL_SIZE)%Z.
Proof.
  induction sortedEntries as [| filename rest IH];
    intros files out totalSize Htotal Hinv Hrun b l Hout;
    cbn [Zip.extract_loop] in Hrun.
  - injection Hrun as <-. exact (Hinv b l Hout).
  - destruct (Zip.MAX_FILES <=? length files)%nat;
      [injection Hrun as <-; exact (Hinv b l Hout) |].
    destruct (Zip.MAX_TOTAL_SIZE <=? totalSize)%Z eqn:Hcap;
      [injection Hrun as <-; exact (Hinv b l Hout) |].
    destruct (Zip.lookup filename contents) as [fileEntry |]; [| discriminate].
    destruct (Zip.dir fileEntry); [exact (IH _ _ _ Htotal Hinv Hrun b l Hout) |].
    destruct (Zip.isRelevant filename); cbn [negb] in Hrun;
      [| exact (IH _ _ _ Htotal Hinv Hrun b l Hout)].
    destruct (includes (Zip.text fileEntry) [0%N]);
      [exact (IH _ _ _ Htotal Hinv Hrun b l Hout) |].
    refine (IH _ _ _ _ _ Hrun b l Hout).
    + rewrite total_size_app, Htotal. unfold Zip.total_size at 3.
      cbn [fold_right content]. lia.
    + intros before last Heq. apply app_inj_tail in Heq. destruct Heq as [<- _].
      apply Z.leb_gt in Hcap. lia.
Qed.

(** X15. The size cap bounds all the files returned but the last one: the
    contents of the files before the last total less than
    [MAX_TOTAL_SIZE] = 512000 characters, so the whole exceeds the cap by less
    than the length of the last file. *)
Theorem extractTextFromZip_size
        (contents : Zip.ZipFiles) (before : list ProjectFile) (last : ProjectFile) :
  Zip.extractTextFromZip (Answers contents) = Return (before ++ [last]) ->
  (Zip.total_size before < 512000)%Z
  /\ (Zip.total_size (before ++ [last]) < 512000 + Zip.size (content last))%Z.
Proof.
  unfold Zip.extractTextFromZip. intros Hrun.
  assert (Hbefore : (Zip.total_size before < Zip.MAX_TOTAL_SIZE)%Z).
  { refine (extract_loop_size _ _ [] _ 0%Z eq_refl _ Hrun before last eq_refl).
    intros b l Heq. destruct b; discriminate. }
  change Zip.MAX_TOTAL_SIZE with 512000%Z in Hbefore.
  split; [exact Hbefore |].
  rewrite total_size_app. unfold Zip.total_size at 2. cbn [fold_right]. lia.
Qed.

Lemma extractTextFromZip_size_witness :
  (Zip.total_size [ {| name := lit "README.md"; content := lit "# Demo" |};
                    {| name := lit "docs/readme.txt"; content := lit "Usage" |} ]
   < 512000)%Z.
Proof.
  apply (extractTextFromZip_size sample_archive
           [ {| name := lit "README.md"; content := lit "# Demo" |};
             {| name := lit "docs/readme.txt"; content := lit "Usage" |} ]
           {| name := lit "src/main.TS"; content := lit "export {}" |}).
  reflexivity.
Defined.

(** ** Script generator *)

Lemma script_file_context_truncated (files : list ProjectFile) :
  script_file_context (List.map (truncated (Z.to_nat 10000)) files)
  = script_file_context files.
Proof.
  unfold script_file_context. rewrite map_map. f_equal.
  apply map_ext. intros f. cbn [truncated name content].
  now rewrite firstn_firstn, Nat.min_id.
Qed.

(** X16. [generateSalesScript] depends on the files only through their names
    and the first 10000 characters of each content, and not at all on the
    reference URL.  What it returns is the text of the response to its
    prompt when that text is not empty, and the sentence
    [Failed to generate script.] when the text is missing or empty; so it
    never returns an empty script.  It throws exactly when the request fails,
    and then the one error [Failed to generate script.], whatever made the
    request fail. *)
Theorem generateSalesScript_contract
        (generate : jsstring -> reply (option jsstring))
        (files : list ProjectFile) (platform : Platform)
        (referenceUrl otherUrl : option jsstring) :
  generateSalesScript generate (List.map (truncated (Z.to_nat 10000)) files)
                      platform otherUrl
  = generateSalesScript generate files platform referenceUrl
  /\ (forall text,
         generate (script_prompt (script_file_context files) platform)
         = Answers (Some text) ->
         text <> [] ->
         generateSalesScript generate files platform referenceUrl = Return text)
  /\ (forall text,
         generate (script_prompt (script_file_context files) platform) = Answers text ->
         truthy text = false ->
         generateSalesScript generate files platform referenceUrl
         = Return (lit "Failed to generate script."))
  /\ (forall e,
         generate (script_prompt (script_file_context files) platform) = Fails e ->
         generateSalesScript generate files platform referenceUrl
         = Throw (Error (Some (lit "Failed to generate script."))))
  /\ ((exists script,
          generateSalesScript generate files platform referenceUrl = Return script
          /\ script <> []
          /\ exists text, generate (script_prompt (script_file_context files) platform)
                          = Answers text)
      \/ (generateSalesScript generate files platform referenceUrl
          = Throw (Error (Some (lit "Failed to generate script.")))
          /\ exists e, generate (script_prompt (script_file_context files) platform)
                       = Fails e)).
Proof.
  unfold generateSalesScript. rewrite script_file_context_truncated.
  split; [reflexivity |].
  split; [intros text Hreply Hne; rewrite Hreply; now destruct text |].
  split; [intros text Hreply Hempty; rewrite Hreply;
          destruct text as [[| c text] |]; [reflexivity | discriminate | reflexivity] |].
  split; [intros e Hreply; now rewrite Hreply |].
  destruct (generate _) as [text | e].
  - left. eexists. split; [reflexivity |]. split; [| now exists text].
    destruct text as [[| c text] |]; discriminate.
  - right. split; [reflexivity | now exists e].
Qed.

Lemma generateSalesScript_contract_witness :
  generateSalesScript (fun _ => Answers (Some (lit "Ship it today.")))
                      [ {| name := lit "README.md"; content := lit "# Demo" |} ]
                      YOUTUBE None
  = Return (lit "Ship it today.")
  /\ generateSalesScript (fun _ => Answers None)
                         [ {| name := lit "README.md"; content := lit "# Demo" |} ]
                         YOUTUBE None
     = Return (lit "Failed to generate script.")
  /\ generateSalesScript (fun _ => Fails unavailable)
                         [ {| name := lit "README.md"; content := lit "# Demo" |} ]
                         YOUTUBE None
     = Throw (Error (Some (lit "Failed to generate script."))).
Proof.
  split; [| split].
  - apply (proj1 (proj2 (generateSalesScript_contract
                           (fun _ => Answers (Some (lit "Ship it today.")))
                           [ {| name := lit "README.md"; content := lit "# Demo" |} ]
                           YOUTUBE None None))
             (lit "Ship it today.")); [reflexivity | discriminate].
  - apply (proj1 (proj2 (proj2 (generateSalesScript_contract
                                  (fun _ => Answers None)
                                  [ {| name := lit "README.md"; content := lit "# Demo" |} ]
                                  YOUTUBE None None)))
             None); reflexivity.
  - apply (proj1 (proj2 (proj2 (proj2 (generateSalesScript_contract
                                         (fun _ => Fails unavailable)
                                         [ {| name := lit "README.md"; content := lit "# Demo" |} ]
                                         YOUTUBE None None))))
             unavailable); reflexivity.
Defined.

(** X17. A response of the script model without text is not an error:
    [generateSalesScript] returns the sentence [Failed to generate script.]
    as the script, and [generateVoiceover], given this result, does not stop
    at its empty-script test but sends the sentence to the TTS model. *)
Theorem empty_script_response_is_voiced
        (generate : jsstring -> reply (option jsstring))
        (files : list ProjectFile) (platform : Platform)
        (referenceUrl : option jsstring) (text : option jsstring)
        (w : World) (voice : VoiceOption) :
  generate (script_prompt (script_file_context files) platform) = Answers text ->
  truthy text = false ->
  exists script,
    generateSalesScript generate files platform referenceUrl = Return script
    /\ hd_error (trace (generateVoiceover w script voice))
       = Some (TtsRequest (lit "Failed to generate script.") voice).
Proof.
  intros Hreply Hempty. exists (lit "Failed to generate script."). split.
  - unfold generateSalesScript. rewrite Hreply.
    destruct text as [[| c text] |]; [reflexivity | discriminate | reflexivity].
  - unfold generateVoiceover.
    change (cleanScriptForTTS (lit "Failed to generate script."))
      with (lit "Failed to generate script.").
    change (negb (truthy_string (lit "Failed to generate script."))) with false.
    cbv iota. change (counting 0 3) with [0; 1; 2]%Z.
    rewrite trace_bind.
    destruct (tts_loop_step w (lit "Failed to generate script.") voice 0 [1; 2]%Z None)
      as [(x & _ & Hrun) | (e & He)].
    + now rewrite Hrun.
    + now rewrite (tts_loop_failed_attempt w _ voice 0 _ None e He).
Qed.

Lemma empty_script_response_is_voiced_witness :
  exists script,
    generateSalesScript (fun _ => Answers (Some [])) [] TIKTOK None = Return script
    /\ hd_error (trace (generateVoiceover failing_world script KORE))
       = Some (TtsRequest (lit "Failed to generate script.") KORE).
Proof.
  apply (empty_script_response_is_voiced (fun _ => Answers (Some [])) [] TIKTOK None
           (Some []) failing_world KORE); reflexivity.
Defined.

(** ** Data-URL decoding *)

Lemma split_without_separator (sep : N) (s : jsstring) :
  ~ In sep s -> split sep s = [s].
Proof.
  induction s as [| c s IH]; intros Hnot; [reflexivity |].
  cbn [split]. destruct (c =? sep)%N eqn:Hc.
  - apply N.eqb_eq in Hc. subst. elim Hnot. now left.
  - rewrite IH; [reflexivity |]. intros Hin. apply Hnot. now right.
Qed.

Lemma split_at_first_separator (sep : N) (a b : jsstring) :
  ~ In sep a -> split sep (a ++ sep :: b) = a :: split sep b.
Proof.
  induction a as [| c a IH]; intros Hnot.
  - cbn [app split]. now rewrite N.eqb_refl.
  - cbn [app split]. destruct (c =? sep)%N eqn:Hc.
    + apply N.eqb_eq in Hc. subst. elim Hnot. now left.
    + rewrite IH; [reflexivity |]. intros Hin. apply Hnot. now right.
Qed.

(** X18. [blobToBase64] gives the part of the data URL after its first
    comma: for a header and a payload without comma the payload itself.  A
    reader result without any comma gives [undefined], not an error, and a
    failure of the reader rejects with the reader's error. *)
Theorem blobToBase64_payload :
  (forall header payload : jsstring,
      ~ In c_comma header ->
      ~ In c_comma payload ->
      blobToBase64 (Answers (header ++ c_comma :: payload)) = Return (Some payload))
  /\ (forall res : jsstring,
         ~ In c_comma res -> blobToBase64 (Answers res) = Return None)
  /\ (forall err : error, blobToBase64 (Fails err) = Throw err).
Proof.
  split; [| split].
  - intros header payload Hh Hp. unfold blobToBase64.
    now rewrite (split_at_first_separator c_comma header payload Hh),
                (split_without_separator c_comma payload Hp).
  - intros res Hres. unfold blobToBase64.
    now rewrite (split_without_separator c_comma res Hres).
  - reflexivity.
Qed.

Lemma blobToBase64_payload_witness :
  blobToBase64 (Answers (lit "data:image/png;base64" ++ c_comma :: lit "iVBORw0KGgo="))
  = Return (Some (lit "iVBORw0KGgo=")).
Proof.
  apply (proj1 blobToBase64_payload (lit "data:image/png;base64") (lit "iVBORw0KGgo="));
    vm_compute; intuition discriminate.
Defined.

(** ** Frame sampling with few frames *)

Lemma parts_at_all (w : World) (videoFrames : list VideoFrame) :
  forall before,
    parts_at w (before ++ videoFrames) (seq (length before) (length videoFrames))
    = flat_map (frame_parts w) videoFrames.
Proof.
  induction videoFrames as [| f frames IH]; intros before; [reflexivity |].
  cbn [length seq parts_at flat_map].
  rewrite nth_error_app2, Nat.sub_diag by apply Nat.le_refl. cbn [nth_error].
  f_equal. specialize (IH (before ++ [f])).
  rewrite <- app_assoc, length_app in IH. cbn [app length] in IH.
  rewrite Nat.add_1_r in IH. exact IH.
Qed.

(** X19. With one to five frames the stride is 1 and every frame is sent,
    in order, each as its image followed by its timestamp label. *)
Theorem sample_frames_all (w : World) (videoFrames : list VideoFrame) :
  (1 <= length videoFrames <= 5)%nat ->
  sample_frames w videoFrames = Some (flat_map (frame_parts w) videoFrames).
Proof.
  intros Hn. rewrite sample_frames_run by lia.
  assert (Hstride : ceil_div (length videoFrames) MAX_CONTEXT_FRAMES = 1%nat).
  { unfold ceil_div, MAX_CONTEXT_FRAMES.
    destruct (length videoFrames) as [| [| [| [| [| [| n]]]]]]; try reflexivity; lia. }
  rewrite Hstride. unfold stride_indices, ceil_div.
  rewrite Nat.add_sub, Nat.div_1_r.
  rewrite (map_ext (fun k => k * 1)%nat (fun k => k)) by (intros k; lia).
  rewrite map_id. f_equal. exact (parts_at_all w videoFrames []).
Qed.

Lemma sample_frames_all_witness :
  sample_frames failing_world
    [ {| timestamp := 0; frame_base64 := lit "/9j/" |};
      {| timestamp := 2; frame_base64 := lit "/9k/" |} ]
  = Some [ InlineData (lit "image/jpeg") (lit "/9j/"); Text (lit "[Timestamp: 0s]");
           InlineData (lit "image/jpeg") (lit "/9k/"); Text (lit "[Timestamp: 2s]") ].
Proof.
  apply (sample_frames_all failing_world
           [ {| timestamp := 0; frame_base64 := lit "/9j/" |};
             {| timestamp := 2; frame_base64 := lit "/9k/" |} ]).
  cbn. lia.
Defined.

(** ** Archive text extraction: nothing eligible is dropped below the caps *)

Lemma total_size_nonneg (files : list ProjectFile) : (0 <= Zip.total_size files)%Z.
Proof.
  unfold Zip.total_size, Zip.size. induction files as [| f files IH]; cbn [fold_right]; lia.
Qed.

Lemma extract_loop_complete (contents : Zip.ZipFiles) (sortedEntries : list jsstring) :
  forall (files out : list ProjectFile) (totalSize : Z),
    totalSize = Zip.total_size files ->
    Zip.extract_loop contents sortedEntries files totalSize = Return out ->
    (length out < Zip.MAX_FILES)%nat ->
    (Zip.total_size out < Zip.MAX_TOTAL_SIZE)%Z ->
    incl files out
    /\ forall filename fileEntry,
         In filename sortedEntries ->
         Zip.lookup filename contents = Some fileEntry ->
         Zip.dir fileEntry = false ->
         Zip.isRelevant filename = true ->
         includes (Zip.text fileEntry) [0%N] = false ->
         In {| name := filename; content := Zip.text fileEntry |} out.
Proof.
  induction sortedEntries as [| filename rest IH];
    intros files out totalSize Htotal Hrun Hcount Hsize.
  - cbn [Zip.extract_loop] in Hrun. injection Hrun as <-.
    split; [apply incl_refl | intros ? ? []].
  - destruct (extract_loop_added _ _ _ _ _ Hrun) as (added & Hout & _ & _).
    cbn [Zip.extract_loop] in Hrun.
    destruct (Zip.MAX_FILES <=? length files)%nat eqn:Hfull.
    { apply Nat.leb_le in Hfull. injection Hrun as <-. lia. }
    destruct (Zip.MAX_TOTAL_SIZE <=? totalSize)%Z eqn:Hcap.
    { apply Z.leb_le in Hcap. injection Hrun as <-. lia. }
    destruct (Zip.lookup filename contents) as [fileEntry |] eqn:Hlookup; [| discriminate].
    assert (Hskip : Zip.extract_loop contents rest files totalSize = Return out ->
                    (Zip.dir fileEntry = true \/ Zip.isRelevant filename = false
                     \/ includes (Zip.text fileEntry) [0%N] = true) ->
                    incl files out
                    /\ forall name' entry',
                         In name' (filename :: rest) ->
                         Zip.lookup name' contents = Some entry' ->
                         Zip.dir entry' = false ->
                         Zip.isRelevant name' = true ->
                         includes (Zip.text entry') [0%N] = false ->
                         In {| name := name'; content := Zip.text entry' |} out).
    { intros H Hwhy. destruct (IH _ _ _ Htotal H Hcount Hsize) as [Hincl Hall].
      split; [exact Hincl |].
      intros name' entry' [<- | Hin] Hl Hd Hr Hn; [| exact (Hall _ _ Hin Hl Hd Hr Hn)].
      rewrite Hlookup in Hl. injection Hl as <-.
      destruct Hwhy as [H' | [H' | H']]; congruence. }
    destruct (Zip.dir fileEntry) eqn:Hdir; [apply Hskip; [exact Hrun | now left] |].
    destruct (Zip.isRelevant filename) eqn:Hrel; cbn [negb] in Hrun;
      [| apply Hskip; [exact Hrun | right; now left]].
    destruct (includes (Zip.text fileEntry) [0%N]) eqn:Hnul;
      [apply Hskip; [exact Hrun | right; now right] |].
    assert (Htotal' : (totalSize + Zip.size (Zip.text fileEntry))%Z
                      = Zip.total_size
                          (files ++ [ {| name := filename; content := Zip.text fileEntry |} ])).
    { subst totalSize. rewrite total_size_app. unfold Zip.total_size.
      cbn [fold_right content]. lia. }
    destruct (IH _ _ _ Htotal' Hrun Hcount Hsize) as [Hincl Hall].
    split; [intros f Hf; apply Hincl, in_or_app; now left |].
    intros name' entry' [<- | Hin] Hl Hd Hr Hn; [| exact (Hall _ _ Hin Hl Hd Hr Hn)].
    rewrite Hlookup in Hl. injection Hl as <-.
    apply Hincl, in_or_app. right. now left.
Qed.

(** X20. Below the caps nothing eligible is left out: when fewer than 50
    files are returned and their contents total less than 512000 characters,
    every entry of the archive that is not a directory, has an allow-listed
    extension and a text without NUL character is among the files returned,
    with its text. *)
Theorem extractTextFromZip_complete
        (contents : Zip.ZipFiles) (out : list ProjectFile)
        (filename : jsstring) (fileEntry : Zip.ZipEntry) :
  Zip.extractTextFromZip (Answers contents) = Return out ->
  (length out < 50)%nat ->
  (Zip.total_size out < 512000)%Z ->
  Zip.lookup filename contents = Some fileEntry ->
  Zip.dir fileEntry = false ->
  Zip.isRelevant filename = true ->
  includes (Zip.text fileEntry) [0%N] = false ->
  In {| name := filename; content := Zip.text fileEntry |} out.
Proof.
  unfold Zip.extractTextFromZip. rewrite sort_by_readme.
  intros Hrun Hcount Hsize Hlookup Hdir Hrel Hnul.
  destruct (extract_loop_complete _ _ [] out 0%Z eq_refl Hrun Hcount Hsize) as [_ Hall].
  apply (Hall filename fileEntry); try assumption.
  assert (Hkey : In filename (List.map fst contents)).
  { clear - Hlookup. induction contents as [| [k e] contents IH]; [discriminate |].
    cbn [Zip.lookup] in Hlookup. cbn [List.map fst].
    destruct (eqb k filename) eqn:Hk; [left | right; exact (IH Hlookup)].
    unfold eqb in Hk. now destruct (list_eq_dec N.eq_dec k filename). }
  apply in_or_app. destruct (is_readme filename) eqn:Hreadme.
  - left. apply filter_In. now split.
  - right. apply filter_In. split; [exact Hkey | now rewrite Hreadme].
Qed.

Lemma extractTextFromZip_complete_witness :
  In {| name := lit "src/main.TS"; content := lit "export {}" |}
     [ {| name := lit "README.md"; content := lit "# Demo" |};
       {| name := lit "docs/readme.txt"; content := lit "Usage" |};
       {| name := lit "src/main.TS"; content := lit "export {}" |} ].
Proof.
  apply (extractTextFromZip_complete sample_archive _ (lit "src/main.TS")
           {| Zip.dir := false; Zip.text := lit "export {}" |});
    try reflexivity.
  - cbn. lia.
Defined.

(** X13. [extractTextFromZip] returns at most 50 files; the name of each,
    put in lower case, ends with one of the extensions of
    [RELEVANT_EXTENSIONS], and no content holds a NUL character. *)
Theorem extractTextFromZip_filters
        (contents : Zip.ZipFiles) (out : list ProjectFile) :
  Zip.extractTextFromZip (Answers contents) = Return out ->
  (length out <= 50)%nat
  /\ Forall (fun f => exists ext,
                 In ext Zip.RELEVANT_EXTENSIONS
                 /\ endsWith (toLowerCase (name f)) ext = true) out
  /\ Forall (fun f => includes (content f) [0%N] = false) out.
Proof.
  unfold Zip.extractTextFromZip. intros Hrun.
  apply extract_loop_invariant in Hrun; [| unfold Zip.MAX_FILES; cbn; lia | constructor].
  destruct Hrun as [Hcount Hok]. split; [exact Hcount |].
  split; (eapply Forall_impl; [| exact Hok]); intros f [Hrel Hnul]; [| exact Hnul].
  unfold Zip.isRelevant in Hrel. apply existsb_exists in Hrel.
  destruct Hrel as (ext & Hin & Hends). now exists ext.
Qed.

Lemma extractTextFromZip_filters_witness :
  (length [ {| name := lit "README.md"; content := lit "# Demo" |};
            {| name := lit "docs/readme.txt"; content := lit "Usage" |};
            {| name := lit "src/main.TS"; content := lit "export {}" |} ] <= 50)%nat.
Proof.
  apply (extractTextFromZip_filters sample_archive). reflexivity.
Defined.
